(** * flang/Common/api-attrs.h: the macro contract of the Flang runtime

    The header consists of preprocessor directives only.  It is embedded
    here as a transformer of the preprocessor's state: the table of macro
    definitions together with the diagnostics issued so far.  Every
    directive of the header is one combinator application below, in the
    order of the source. *)

From stdpp Require Import base strings list gmap.
From Stdlib Require Import ZArith.

Open Scope string_scope.
Open Scope Z_scope.

(** ** Preprocessing tokens and macro definitions *)

(** A preprocessing token.  Keywords such as [inline] are identifiers for
    the preprocessor; a string literal is kept without its quotes; a
    pp-number is kept by its value. *)
Inductive token : Type :=
  | Ident (name : string)
  | Number (value : Z)
  | StringLit (text : string)
  | Punct (spelling : string).

(** What a name is bound to in the macro table: an object-like macro
    ([#define N body]), a function-like macro ([#define N(params) body]),
    or the compiler's built-in [__has_attribute], which answers 1 for the
    attributes the compiler [known]s. *)
Inductive macro : Type :=
  | Obj (body : list token)
  | Fn (params : list string) (body : list token)
  | HasAttributeBuiltin (known : list string).

(** The diagnostics of this model: an [#error] directive, an [#if] whose
    expression cannot be evaluated (both errors), and the redefinition of
    a macro with a different definition (a warning of GCC, Clang and
    MSVC). *)
Inductive diag : Type :=
  | ErrorDirective (message : string)
  | BadIfExpr
  | Redefinition (name : string).

#[global] Instance token_eq_dec : EqDecision token.
Proof. solve_decision. Defined.
#[global] Instance macro_eq_dec : EqDecision macro.
Proof. solve_decision. Defined.
#[global] Instance diag_eq_dec : EqDecision diag.
Proof. solve_decision. Defined.

Record pp_state : Type := PPState {
  macros : gmap string macro;
  diags : list diag
}.

(** The state a translation unit starts from: the macros predefined by the
    compiler, the build system and the including file, and no diagnostic. *)
Definition init (m : gmap string macro) : pp_state :=
  {| macros := m; diags := [] |}.

(** ** Macro replacement of object-like macros *)

(** The outcome of rescanning a token sequence.  [Unsupported] is returned
    when the scan meets the name of a function-like macro or of the
    built-in: invoking those is only modelled for [__has_attribute] inside
    [#if] (see [has_attribute]). *)
Inductive expansion : Type :=
  | Expanded (ts : list token)
  | Unsupported
  | OutOfFuel.

Definition expansion_app (a b : expansion) : expansion :=
  match a with
  | Expanded x =>
      match b with
      | Expanded y => Expanded (x ++ y)
      | other => other
      end
  | other => other
  end.

Section rescan.
Variable m : gmap string macro.
(** How a replacement list is rescanned, given the names being replaced. *)
Variable nested : gset string → list token → expansion.

(** A name that is being replaced is not replaced again (C 6.10.3.4p2). *)
Fixpoint expand_tokens (hide : gset string) (ts : list token) : expansion :=
  match ts with
  | [] => Expanded []
  | Ident x :: rest =>
      if decide (x ∈ hide) then
        expansion_app (Expanded [Ident x]) (expand_tokens hide rest)
      else
        match m !! x with
        | None => expansion_app (Expanded [Ident x]) (expand_tokens hide rest)
        | Some (Obj body) =>
            expansion_app (nested ({[x]} ∪ hide) body) (expand_tokens hide rest)
        | Some (Fn _ _) | Some (HasAttributeBuiltin _) => Unsupported
        end
  | t :: rest => expansion_app (Expanded [t]) (expand_tokens hide rest)
  end.
End rescan.

Fixpoint expand_fuel (n : nat) (m : gmap string macro)
    (hide : gset string) (ts : list token) : expansion :=
  match n with
  | O => OutOfFuel
  | S n' => expand_tokens m (expand_fuel n' m) hide ts
  end.

(** Every nested replacement hides one more macro of the table, so one
    level per macro (and one for the outermost scan) is enough: see
    [expand_terminates]. *)
Definition expand_hiding (m : gmap string macro) (hide : gset string)
    (ts : list token) : expansion :=
  expand_fuel (S (size (dom m))) m hide ts.

Definition expand (m : gmap string macro) (ts : list token) : expansion :=
  expand_hiding m ∅ ts.

(** ** Controlling expressions of [#if] *)

(** [#if] arithmetic is done in the widest integer type, 64 bits wide:
    a literal that does not fit wraps around (compilers warn about it,
    which is not modelled: see [in_range]). *)
Definition wrap64 (z : Z) : Z := z mod 2 ^ 64.

(** An operand after macro replacement: an integer literal has its value
    in 64 bits, an identifier that is left evaluates to 0 (C 6.10.1p4; C++
    and C23 read [true] as 1, which is not modelled).  Operands of any
    other form (parentheses, operators, invocations of function-like
    macros) are outside the expressions this model evaluates: the
    theorems below about a comparison assume operands of these two
    forms, see [plain_operand]. *)
Definition operand_value (e : expansion) : option Z :=
  match e with
  | Expanded [Number z] => Some (wrap64 z)
  | Expanded [Ident _] => Some 0
  | _ => None
  end.

(** A controlling expression; [None] when it cannot be evaluated. *)
Definition cond : Type := pp_state → option bool.
Definition operand : Type := pp_state → option Z.

Definition defined (x : string) : cond :=
  fun st => Some (bool_decide (is_Some (macros st !! x))).

Definition cnot (c : cond) : cond := fun st => negb <$> c st.

(** Both operands of [&&] and [||] must be well formed, also when the
    left one decides the value. *)
Definition cand (a b : cond) : cond :=
  fun st => match a st, b st with
            | Some x, Some y => Some (x && y)
            | _, _ => None
            end.

Definition cor (a b : cond) : cond :=
  fun st => match a st, b st with
            | Some x, Some y => Some (x || y)
            | _, _ => None
            end.

Definition ident (x : string) : operand :=
  fun st => operand_value (expand (macros st) [Ident x]).

(** [a == b], on the 64-bit values of the operands. *)
Definition ceq (a b : operand) : cond :=
  fun st => match a st, b st with
            | Some x, Some y => Some (x =? y)
            | _, _ => None
            end.

Definition subst_param (p a : string) (t : token) : token :=
  match t with
  | Ident x => if decide (x = p) then Ident a else t
  | _ => t
  end.

(** [__has_attribute(a)] in a controlling expression.  The operand of the
    built-in is macro-replaced first: when an identifier is left the
    built-in answers for it from the compiler's list, anything else is an
    error.  A one-parameter function-like macro of that name is replaced
    by its body with the argument substituted, and the result is rescanned
    with the macro's own name hidden. *)
Definition has_attribute (a : string) : cond :=
  fun st =>
    match macros st !! "__has_attribute" with
    | Some (HasAttributeBuiltin known) =>
        match expand (macros st) [Ident a] with
        | Expanded [Ident b] => Some (bool_decide (b ∈ known))
        | _ => None
        end
    | Some (Fn [p] body) =>
        (fun z => negb (z =? 0)) <$>
          operand_value
            (expand_hiding (macros st) {["__has_attribute"]}
               (subst_param p a <$> body))
    | _ => None
    end.

(** ** Directives *)

Definition directive : Type := pp_state → pp_state.

Definition skip : directive := fun st => st.

Definition seq (d1 d2 : directive) : directive := fun st => d2 (d1 st).

Declare Scope directive_scope.
Delimit Scope directive_scope with pp.
Bind Scope directive_scope with directive.
Notation "d1 ;; d2" := (seq d1 d2)
  (at level 100, d2 at level 200, right associativity) : directive_scope.
#[local] Open Scope directive_scope.

(** What defining [name] as [d] is diagnosed with: nothing when [name] is
    not defined or is defined the same way (the same tokens: their
    spacing is not part of [token]), a redefinition otherwise. *)
Definition redefinition (name : string) (d : macro) (st : pp_state) : list diag :=
  match macros st !! name with
  | Some old => if decide (old = d) then [] else [Redefinition name]
  | None => []
  end.

Definition set_macro (name : string) (d : macro) : directive :=
  fun st => {| macros := <[name := d]> (macros st);
               diags := diags st ++ redefinition name d st |}.

(** [#define name body].  A later definition replaces an earlier one, and
    is diagnosed when it differs from it. *)
Definition define (name : string) (body : list token) : directive :=
  set_macro name (Obj body).

(** [#define name(params) body]. *)
Definition define_fn (name : string) (params : list string)
    (body : list token) : directive :=
  set_macro name (Fn params body).

(** [#undef name]. *)
Definition undef (name : string) : directive :=
  fun st => {| macros := delete name (macros st); diags := diags st |}.

Definition report (d : diag) : directive :=
  fun st => {| macros := macros st; diags := diags st ++ [d] |}.

(** [#error "message"]. *)
Definition error (message : string) : directive :=
  report (ErrorDirective message).

(** [#if c] ... [#else] ... [#endif]; an [#elif] is an [#if] in the
    [#else] group.  An expression that cannot be evaluated is diagnosed
    and its group is skipped. *)
Definition pp_if (c : cond) (then_ else_ : directive) : directive :=
  fun st =>
    match c st with
    | Some true => then_ st
    | Some false => else_ st
    | None => else_ (report BadIfExpr st)
    end.

Definition ifndef (name : string) (body : directive) : directive :=
  pp_if (cnot (defined name)) body skip.

(** ** The header *)

(** [_Pragma("text")]. *)
Definition pragma (text : string) : list token :=
  [Ident "_Pragma"; Punct "("; StringLit text; Punct ")"].

(** [(defined(__CUDACC__) || defined(__CUDA__))]. *)
Definition cuda : cond := cor (defined "__CUDACC__") (defined "__CUDA__").

(** [(defined(__CUDACC__) || defined(__CUDA__)) && defined(__CUDA_ARCH__)]. *)
Definition cuda_device : cond := cand cuda (defined "__CUDA_ARCH__").

(** Lines 26-35. *)
Definition ext_api_group_begin : directive :=
  ifndef "RT_EXT_API_GROUP_BEGIN"
    (pp_if (defined "OMP_NOHOST_BUILD")
       (define "RT_EXT_API_GROUP_BEGIN"
          (pragma "omp begin declare target device_type(nohost)"))
       (pp_if (defined "OMP_OFFLOAD_BUILD")
          (define "RT_EXT_API_GROUP_BEGIN" (pragma "omp declare target"))
          (define "RT_EXT_API_GROUP_BEGIN" []))).

(** Lines 37-43. *)
Definition ext_api_group_end : directive :=
  ifndef "RT_EXT_API_GROUP_END"
    (pp_if (cor (defined "OMP_NOHOST_BUILD") (defined "OMP_OFFLOAD_BUILD"))
       (define "RT_EXT_API_GROUP_END" (pragma "omp end declare target"))
       (define "RT_EXT_API_GROUP_END" [])).

(** Lines 26-43. *)
Definition ext_api_group : directive :=
  ext_api_group_begin ;; ext_api_group_end.

(** Lines 54-55. *)
Definition offload_api_group : directive :=
  define "RT_OFFLOAD_API_GROUP_BEGIN" [Ident "RT_EXT_API_GROUP_BEGIN"] ;;
  define "RT_OFFLOAD_API_GROUP_END" [Ident "RT_EXT_API_GROUP_END"].

(** Lines 63-64. *)
Definition offload_var_group : directive :=
  define "RT_OFFLOAD_VAR_GROUP_BEGIN" [Ident "RT_EXT_API_GROUP_BEGIN"] ;;
  define "RT_OFFLOAD_VAR_GROUP_END" [Ident "RT_EXT_API_GROUP_END"].

(** Lines 73-75. *)
Definition var_group_begin : directive :=
  ifndef "RT_VAR_GROUP_BEGIN"
    (define "RT_VAR_GROUP_BEGIN" [Ident "RT_EXT_API_GROUP_BEGIN"]).

(** Lines 77-79. *)
Definition var_group_end : directive :=
  ifndef "RT_VAR_GROUP_END"
    (define "RT_VAR_GROUP_END" [Ident "RT_EXT_API_GROUP_END"]).

(** Lines 73-79. *)
Definition var_group : directive := var_group_begin ;; var_group_end.

(** Lines 89-95. *)
Definition api_attrs : directive :=
  ifndef "RT_API_ATTRS"
    (pp_if cuda
       (define "RT_API_ATTRS" [Ident "__host__"; Ident "__device__"])
       (define "RT_API_ATTRS" [])).

(** Lines 104-110. *)
Definition const_var_attrs : directive :=
  ifndef "RT_CONST_VAR_ATTRS"
    (pp_if cuda_device
       (define "RT_CONST_VAR_ATTRS" [Ident "__constant__"])
       (define "RT_CONST_VAR_ATTRS" [])).

(** Lines 116-122. *)
Definition var_attrs : directive :=
  ifndef "RT_VAR_ATTRS"
    (pp_if cuda_device
       (define "RT_VAR_ATTRS" [Ident "__device__"])
       (define "RT_VAR_ATTRS" [])).

(** Lines 129-134. *)
Definition device_compilation : directive :=
  pp_if (cor cuda_device
           (cand (defined "_OPENMP")
              (cor (defined "__AMDGCN__") (defined "__NVPTX__"))))
    (define "RT_DEVICE_COMPILATION" [Number 1])
    (undef "RT_DEVICE_COMPILATION").

(** Lines 142-146. *)
Definition device_avoid_recursion : directive :=
  pp_if cuda_device
    (define "RT_DEVICE_AVOID_RECURSION" [Number 1])
    (undef "RT_DEVICE_AVOID_RECURSION").

(** Lines 148-157. *)
Definition diag_bracket : directive :=
  pp_if (defined "__CUDACC__")
    (define "RT_DIAG_PUSH" (pragma "nv_diagnostic push") ;;
     define "RT_DIAG_POP" (pragma "nv_diagnostic pop") ;;
     define "RT_DIAG_DISABLE_CALL_HOST_FROM_DEVICE_WARN"
       (pragma "nv_diag_suppress 20011" ++ pragma "nv_diag_suppress 20014"))
    (define "RT_DIAG_PUSH" [] ;;
     define "RT_DIAG_POP" [] ;;
     define "RT_DIAG_DISABLE_CALL_HOST_FROM_DEVICE_WARN" []).

(** [__attribute__((noinline))]. *)
Definition noinline_attribute : list token :=
  [Ident "__attribute__"; Punct "("; Punct "("; Ident "noinline";
   Punct ")"; Punct ")"].

(** Lines 165-167. *)
Definition has_attribute_fallback : directive :=
  ifndef "__has_attribute" (define_fn "__has_attribute" ["x"] [Number 0]).

(** Lines 168-172. *)
Definition noinline_attr : directive :=
  pp_if (has_attribute "noinline")
    (define "RT_NOINLINE_ATTR" noinline_attribute)
    (define "RT_NOINLINE_ATTR" []).

(** Lines 173-179. *)
Definition device_noinline : directive :=
  pp_if cuda_device
    (define "RT_DEVICE_NOINLINE" [Ident "RT_NOINLINE_ATTR"] ;;
     define "RT_DEVICE_NOINLINE_HOST_INLINE" [])
    (define "RT_DEVICE_NOINLINE" [] ;;
     define "RT_DEVICE_NOINLINE_HOST_INLINE" [Ident "inline"]).

(** Lines 165-179. *)
Definition noinline : directive :=
  has_attribute_fallback ;; noinline_attr ;; device_noinline.

(** Lines 182-190. *)
Definition optnone : directive :=
  pp_if (has_attribute "optimize")
    (define "RT_OPTNONE_ATTR"
       [Ident "__attribute__"; Punct "("; Punct "("; Ident "optimize";
        Punct "("; StringLit "O0"; Punct ")"; Punct ")"; Punct ")"])
    (pp_if (has_attribute "optnone")
       (define "RT_OPTNONE_ATTR"
          [Ident "__attribute__"; Punct "("; Punct "("; Ident "optnone";
           Punct ")"; Punct ")"])
       (define "RT_OPTNONE_ATTR" [])).

Definition unknown_endianness : string := "Unknown or unsupported endianness.".

(** [defined(_MSC_VER) || defined(_WIN32)]. *)
Definition windows : cond := cor (defined "_MSC_VER") (defined "_WIN32").

(** [defined(__BYTE_ORDER__) && (__BYTE_ORDER__ == order)]. *)
Definition byte_order_is (order : string) : cond :=
  cand (defined "__BYTE_ORDER__") (ceq (ident "__BYTE_ORDER__") (ident order)).

(** Lines 193-207. *)
Definition endianness : directive :=
  pp_if (cand (cnot (defined "FLANG_LITTLE_ENDIAN"))
           (cnot (defined "FLANG_BIG_ENDIAN")))
    (pp_if windows
       (define "FLANG_LITTLE_ENDIAN" [Number 1])
       (pp_if (byte_order_is "__ORDER_LITTLE_ENDIAN__")
          (define "FLANG_LITTLE_ENDIAN" [Number 1])
          (pp_if (byte_order_is "__ORDER_BIG_ENDIAN__")
             (define "FLANG_BIG_ENDIAN" [Number 1])
             (error unknown_endianness))))
    skip.

(** Lines 26-190: everything the header does before it looks at the byte
    order. *)
Definition before_endianness : directive :=
  ext_api_group ;; offload_api_group ;; offload_var_group ;; var_group ;;
  api_attrs ;; const_var_attrs ;; var_attrs ;;
  device_compilation ;; device_avoid_recursion ;; diag_bracket ;;
  noinline ;; optnone.

Definition include_guard : string := "FORTRAN_RUNTIME_API_ATTRS_H_".

(** Lines 16-209: the whole header. *)
Definition api_attrs_h : directive :=
  ifndef include_guard
    (define include_guard [] ;; before_endianness ;; endianness).

(** ** Build configurations, in the words of the header's comments *)

(** [x] is defined in the macro table [m]. *)
Definition has (m : gmap string macro) (x : string) : Prop :=
  is_Some (m !! x).

(** [x] is an object-like macro whose replacement list is [ts]. *)
Definition defined_as (st : pp_state) (x : string) (ts : list token) : Prop :=
  macros st !! x = Some (Obj ts).

(** A CUDA compiler (nvcc or clang) processes the translation unit. *)
Definition dual_compilation (m : gmap string macro) : Prop :=
  has m "__CUDACC__" ∨ has m "__CUDA__".

(** ... and the current pass is its device pass. *)
Definition device_phase (m : gmap string macro) : Prop :=
  dual_compilation m ∧ has m "__CUDA_ARCH__".

(** An OpenMP compilation emitting code for an AMD or NVIDIA accelerator. *)
Definition offload_accelerator (m : gmap string macro) : Prop :=
  has m "_OPENMP" ∧ (has m "__AMDGCN__" ∨ has m "__NVPTX__").

Definition windows_platform (m : gmap string macro) : Prop :=
  has m "_MSC_VER" ∨ has m "_WIN32".

(** [__BYTE_ORDER__] is defined and has the same value as [order] where
    the header compares them. *)
Definition byte_order_equals (st : pp_state) (order : string) : Prop :=
  has (macros st) "__BYTE_ORDER__" ∧
  ∃ v, ident "__BYTE_ORDER__" st = Some v ∧ ident order st = Some v.

Definition exactly_one_endianness (st : pp_state) : Prop :=
  (has (macros st) "FLANG_LITTLE_ENDIAN" ∧ ¬ has (macros st) "FLANG_BIG_ENDIAN") ∨
  (¬ has (macros st) "FLANG_LITTLE_ENDIAN" ∧ has (macros st) "FLANG_BIG_ENDIAN").

(** The state in which lines 193-207 are processed when the header is
    included for the first time. *)
Definition at_endianness (m : gmap string macro) : pp_state :=
  before_endianness (define include_guard [] (init m)).

(** The macros whose definition the header wraps in [#ifndef], and the two
    endianness flags, which it only sets when neither is defined. *)
Definition guarded_macros : list string :=
  ["RT_EXT_API_GROUP_BEGIN"; "RT_EXT_API_GROUP_END";
   "RT_VAR_GROUP_BEGIN"; "RT_VAR_GROUP_END";
   "RT_API_ATTRS"; "RT_CONST_VAR_ATTRS"; "RT_VAR_ATTRS";
   "FLANG_LITTLE_ENDIAN"; "FLANG_BIG_ENDIAN"].

(** A directive that leaves the definition of [x] as it found it. *)
Definition preserves (x : string) (d : directive) : Prop :=
  ∀ st, macros (d st) !! x = macros st !! x.

Definition no_error (st : pp_state) : Prop :=
  ∀ msg, ErrorDirective msg ∉ diags st.

(** A directive that issues no [#error]. *)
Definition quiet (d : directive) : Prop :=
  ∀ st, no_error st → no_error (d st).

(** ** Compiler environments used as examples *)

Definition macro_table (l : list (string * macro)) : gmap string macro :=
  list_to_map l.

(** GCC or Clang on a little-endian host. *)
Definition gcc_host : gmap string macro :=
  macro_table
    [("__BYTE_ORDER__", Obj [Ident "__ORDER_LITTLE_ENDIAN__"]);
     ("__ORDER_LITTLE_ENDIAN__", Obj [Number 1234]);
     ("__ORDER_BIG_ENDIAN__", Obj [Number 4321]);
     ("__has_attribute", HasAttributeBuiltin ["noinline"; "optimize"])].

(** The same compiler targeting a big-endian machine. *)
Definition gcc_big_endian : gmap string macro :=
  <["__BYTE_ORDER__" := Obj [Ident "__ORDER_BIG_ENDIAN__"]]> gcc_host.

(** nvcc in its device pass. *)
Definition nvcc_device : gmap string macro :=
  <["__CUDACC__" := Obj []]> (<["__CUDA_ARCH__" := Obj [Number 800]]> gcc_host).

(** nvcc in its host pass. *)
Definition nvcc_host : gmap string macro :=
  <["__CUDACC__" := Obj []]> gcc_host.

(** Clang emitting OpenMP offload code for an AMD GPU, runtime built with
    [OMP_OFFLOAD_BUILD]. *)
Definition clang_amdgcn : gmap string macro :=
  macro_table
    [("__BYTE_ORDER__", Obj [Ident "__ORDER_LITTLE_ENDIAN__"]);
     ("__ORDER_LITTLE_ENDIAN__", Obj [Number 1234]);
     ("__ORDER_BIG_ENDIAN__", Obj [Number 4321]);
     ("__has_attribute", HasAttributeBuiltin ["noinline"; "optnone"]);
     ("_OPENMP", Obj [Number 201811]);
     ("__AMDGCN__", Obj [Number 1]);
     ("OMP_OFFLOAD_BUILD", Obj [])].

(** The same with the host variant suppressed. *)
Definition clang_amdgcn_nohost : gmap string macro :=
  <["OMP_NOHOST_BUILD" := Obj []]> clang_amdgcn.

(** MSVC: no [__BYTE_ORDER__], no [__has_attribute]. *)
Definition msvc : gmap string macro :=
  macro_table [("_MSC_VER", Obj [Number 1930]); ("_WIN32", Obj [Number 1])].

(** A host build in which the including file has defined both endianness
    flags. *)
Definition both_flags_preset : gmap string macro :=
  <["FLANG_LITTLE_ENDIAN" := Obj [Number 1]]>
    (<["FLANG_BIG_ENDIAN" := Obj [Number 1]]> gcc_host).

(** A host build in which the including file has defined
    [RT_DEVICE_COMPILATION] and [RT_DIAG_PUSH] itself. *)
Definition consumer_overrides : gmap string macro :=
  <["RT_DEVICE_COMPILATION" := Obj [Number 1]]>
    (<["RT_DIAG_PUSH" := Obj (pragma "GCC diagnostic push")]> gcc_host).

(** A token sequence none of whose identifiers is a macro of [m]. *)
Definition inert (m : gmap string macro) (ts : list token) : Prop :=
  ∀ y, Ident y ∈ ts → m !! y = None.

(** The three pairs that the header defines as the names of the
    exported-function pair. *)
Definition begin_aliases : list string :=
  ["RT_OFFLOAD_API_GROUP_BEGIN"; "RT_OFFLOAD_VAR_GROUP_BEGIN";
   "RT_VAR_GROUP_BEGIN"].

Definition end_aliases : list string :=
  ["RT_OFFLOAD_API_GROUP_END"; "RT_OFFLOAD_VAR_GROUP_END"; "RT_VAR_GROUP_END"].

(** Every name the header defines or undefines. *)
Definition header_macros : list string :=
  [include_guard;
   "RT_EXT_API_GROUP_BEGIN"; "RT_EXT_API_GROUP_END";
   "RT_OFFLOAD_API_GROUP_BEGIN"; "RT_OFFLOAD_API_GROUP_END";
   "RT_OFFLOAD_VAR_GROUP_BEGIN"; "RT_OFFLOAD_VAR_GROUP_END";
   "RT_VAR_GROUP_BEGIN"; "RT_VAR_GROUP_END";
   "RT_API_ATTRS"; "RT_CONST_VAR_ATTRS"; "RT_VAR_ATTRS";
   "RT_DEVICE_COMPILATION"; "RT_DEVICE_AVOID_RECURSION";
   "RT_DIAG_PUSH"; "RT_DIAG_POP"; "RT_DIAG_DISABLE_CALL_HOST_FROM_DEVICE_WARN";
   "__has_attribute"; "RT_NOINLINE_ATTR";
   "RT_DEVICE_NOINLINE"; "RT_DEVICE_NOINLINE_HOST_INLINE";
   "RT_OPTNONE_ATTR";
   "FLANG_LITTLE_ENDIAN"; "FLANG_BIG_ENDIAN"].

(** The names that are defined after any first inclusion: all of the
    above but the two device indicators and the endianness flags. *)
Definition always_defined : list string :=
  [include_guard;
   "RT_EXT_API_GROUP_BEGIN"; "RT_EXT_API_GROUP_END";
   "RT_OFFLOAD_API_GROUP_BEGIN"; "RT_OFFLOAD_API_GROUP_END";
   "RT_OFFLOAD_VAR_GROUP_BEGIN"; "RT_OFFLOAD_VAR_GROUP_END";
   "RT_VAR_GROUP_BEGIN"; "RT_VAR_GROUP_END";
   "RT_API_ATTRS"; "RT_CONST_VAR_ATTRS"; "RT_VAR_ATTRS";
   "RT_DIAG_PUSH"; "RT_DIAG_POP"; "RT_DIAG_DISABLE_CALL_HOST_FROM_DEVICE_WARN";
   "__has_attribute"; "RT_NOINLINE_ATTR";
   "RT_DEVICE_NOINLINE"; "RT_DEVICE_NOINLINE_HOST_INLINE";
   "RT_OPTNONE_ATTR"].

(** [__attribute__((optimize("O0")))]. *)
Definition optimize_O0_attribute : list token :=
  [Ident "__attribute__"; Punct "("; Punct "("; Ident "optimize";
   Punct "("; StringLit "O0"; Punct ")"; Punct ")"; Punct ")"].

(** [__attribute__((optnone))]. *)
Definition optnone_attribute : list token :=
  [Ident "__attribute__"; Punct "("; Punct "("; Ident "optnone";
   Punct ")"; Punct ")"].

(** The compiler provides [__has_attribute] itself, or not at all. *)
Definition has_attribute_from_compiler (m : gmap string macro) : Prop :=
  m !! "__has_attribute" = None ∨
  ∃ known, m !! "__has_attribute" = Some (HasAttributeBuiltin known).

(** An integer literal that every compiler reads as a signed 64-bit
    value, without wrap-around and without a warning. *)
Definition in_range (z : Z) : Prop := 0 ≤ z < 2 ^ 63.

(** An operand of a comparison that this model evaluates as the
    preprocessor does: the name of a macro that is not defined (it counts
    as 0), or of a macro whose replacement is one integer literal in
    range. *)
Definition plain_operand (st : pp_state) (x : string) : Prop :=
  macros st !! x = None ∨
  ∃ z, in_range z ∧ expand (macros st) [Ident x] = Expanded [Number z].

(** The three operands of the comparisons of lines 199 and 201. *)
Definition plain_byte_order (st : pp_state) : Prop :=
  plain_operand st "__BYTE_ORDER__" ∧
  plain_operand st "__ORDER_LITTLE_ENDIAN__" ∧
  plain_operand st "__ORDER_BIG_ENDIAN__".

(** Processing that issued warnings at most. *)
Definition succeeded (st : pp_state) : Prop :=
  ∀ d, d ∈ diags st → ∃ name, d = Redefinition name.

(** The byte-order macros as GCC and Clang predefine them:
    [__BYTE_ORDER__] is the name of one of the two order macros, which are
    different integer literals in range. *)
Definition gcc_byte_order (m : gmap string macro) (order : string) : Prop :=
  m !! "__BYTE_ORDER__" = Some (Obj [Ident order]) ∧
  ∃ little big,
    m !! "__ORDER_LITTLE_ENDIAN__" = Some (Obj [Number little]) ∧
    m !! "__ORDER_BIG_ENDIAN__" = Some (Obj [Number big]) ∧
    in_range little ∧ in_range big ∧ little ≠ big.

(** None of the attribute names the header asks the compiler about is a
    macro. *)
Definition attribute_names_not_macros (m : gmap string macro) : Prop :=
  m !! "noinline" = None ∧ m !! "optimize" = None ∧ m !! "optnone" = None.

(** The macros the header defines without [#ifndef]: a definition of the
    including file is replaced, or removed by [#undef]. *)
Definition unguarded_macros : list string :=
  ["RT_OFFLOAD_API_GROUP_BEGIN"; "RT_OFFLOAD_API_GROUP_END";
   "RT_OFFLOAD_VAR_GROUP_BEGIN"; "RT_OFFLOAD_VAR_GROUP_END";
   "RT_DEVICE_COMPILATION"; "RT_DEVICE_AVOID_RECURSION";
   "RT_DIAG_PUSH"; "RT_DIAG_POP"; "RT_DIAG_DISABLE_CALL_HOST_FROM_DEVICE_WARN";
   "RT_NOINLINE_ATTR"; "RT_DEVICE_NOINLINE"; "RT_DEVICE_NOINLINE_HOST_INLINE";
   "RT_OPTNONE_ATTR"].

(** A directive that issues no diagnostic at all. *)
Definition silent (d : directive) : Prop :=
  ∀ st, diags (d st) = diags st.


(** * Proofs *)

(** ** What a directive leaves alone *)

Lemma preserves_skip x : preserves x skip.
Proof. done. Qed.

Lemma preserves_set_macro x name d : name ≠ x → preserves x (set_macro name d).
Proof. intros Hne st. by apply lookup_insert_ne. Qed.

Lemma preserves_define x name body :
  name ≠ x → preserves x (define name body).
Proof. apply preserves_set_macro. Qed.

Lemma preserves_define_fn x name ps body :
  name ≠ x → preserves x (define_fn name ps body).
Proof. apply preserves_set_macro. Qed.

Lemma preserves_undef x name : name ≠ x → preserves x (undef name).
Proof. intros Hne st. by apply lookup_delete_ne. Qed.

Lemma preserves_report x d : preserves x (report d).
Proof. done. Qed.

Lemma preserves_seq x d1 d2 :
  preserves x d1 → preserves x d2 → preserves x (d1 ;; d2).
Proof. intros H1 H2 st. unfold seq. by rewrite H2, H1. Qed.

Lemma preserves_pp_if x c a b :
  preserves x a → preserves x b → preserves x (pp_if c a b).
Proof.
  intros Ha Hb st. unfold pp_if.
  destruct (c st) as [[]|]; [apply Ha | apply Hb |].
  by rewrite Hb.
Qed.

Lemma preserves_ifndef x name d : preserves x d → preserves x (ifndef name d).
Proof. intros. apply preserves_pp_if; [done | apply preserves_skip]. Qed.

Ltac unfold_groups :=
  unfold before_endianness, ext_api_group, ext_api_group_begin,
    ext_api_group_end, offload_api_group, offload_var_group, var_group,
    var_group_begin, var_group_end, api_attrs, const_var_attrs, var_attrs,
    device_compilation, device_avoid_recursion, diag_bracket, noinline,
    has_attribute_fallback, noinline_attr, device_noinline, optnone,
    endianness.

Ltac solve_preserves :=
  unfold_groups;
  solve [ repeat first
    [ apply preserves_seq | apply preserves_pp_if | apply preserves_ifndef
    | apply preserves_skip | apply preserves_report
    | apply preserves_define; discriminate
    | apply preserves_define_fn; discriminate
    | apply preserves_undef; discriminate ] ].

(** Rewrites a lookup after a group of directives into the lookup before
    it, wherever the group does not write the name looked up. *)
Ltac frame_step :=
  match goal with
  | |- context [macros (?d ?st) !! ?x] =>
      let H := fresh in
      assert (H : preserves x d) by solve_preserves;
      rewrite (H st); clear H
  end.

Ltac frame := repeat frame_step; change (macros (init ?m)) with m.

Lemma lookup_define name body st :
  macros (define name body st) !! name = Some (Obj body).
Proof. apply lookup_insert_eq. Qed.

Lemma lookup_undef name st : macros (undef name st) !! name = None.
Proof. apply lookup_delete_eq. Qed.

Lemma not_has_None (m : gmap string macro) x : ¬ has m x ↔ m !! x = None.
Proof. unfold has. rewrite eq_None_not_Some. done. Qed.

(** ** The include guard *)

Lemma api_attrs_h_first m :
  m !! include_guard = None →
  api_attrs_h (init m) = endianness (at_endianness m).
Proof.
  intros H. unfold api_attrs_h, at_endianness, ifndef, pp_if, cnot, defined.
  change (macros (init m)) with m. rewrite H.
  rewrite bool_decide_eq_false_2 by (intros [? ?]; discriminate).
  reflexivity.
Qed.

Lemma api_attrs_h_again st :
  has (macros st) include_guard → api_attrs_h st = st.
Proof.
  intros H. unfold api_attrs_h, ifndef, pp_if, cnot, defined.
  by rewrite bool_decide_eq_true_2.
Qed.

Ltac open_header Hg :=
  rewrite (api_attrs_h_first _ Hg);
  cbv beta delta
    [at_endianness before_endianness ext_api_group var_group noinline seq].

(** Evaluates the [#if]s of the group in front, down to tests on the
    macro table. *)
Ltac eval_conds :=
  cbv beta iota delta
    [pp_if ifndef cor cand cnot defined cuda cuda_device windows seq skip];
  cbn [fmap option_fmap option_map].

Ltac decide_conds :=
  repeat case_bool_decide; cbn [andb orb negb];
  rewrite ?lookup_define, ?lookup_undef.

(** ** Device indicators (lines 129-146) *)

(** C6: on a first inclusion, RT_DEVICE_COMPILATION is defined, as 1,
    exactly when a CUDA compiler is in its device pass or an OpenMP
    compilation targets AMDGCN or NVPTX; in every other configuration it
    is undefined afterwards, whatever it was before. *)
Theorem device_compilation_iff (m : gmap string macro) :
  m !! include_guard = None →
  let st := api_attrs_h (init m) in
  (device_phase m ∨ offload_accelerator m →
     defined_as st "RT_DEVICE_COMPILATION" [Number 1]) ∧
  (¬ (device_phase m ∨ offload_accelerator m) →
     macros st !! "RT_DEVICE_COMPILATION" = None).
Proof.
  intros Hg st. subst st. unfold defined_as. open_header Hg. frame.
  unfold device_compilation. eval_conds. frame.
  unfold device_phase, dual_compilation, offload_accelerator, has.
  decide_conds; split; intros; try done; tauto.
Qed.

Lemma device_compilation_iff_witness :
  defined_as (api_attrs_h (init clang_amdgcn)) "RT_DEVICE_COMPILATION" [Number 1].
Proof.
  apply (device_compilation_iff clang_amdgcn); [reflexivity |].
  right. split; [| left]; vm_compute; eauto.
Defined.

(** C10: on a first inclusion, whenever RT_DEVICE_AVOID_RECURSION is
    defined after the header, so is RT_DEVICE_COMPILATION. *)
Theorem avoid_recursion_implies_device_compilation (m : gmap string macro) :
  m !! include_guard = None →
  let st := api_attrs_h (init m) in
  has (macros st) "RT_DEVICE_AVOID_RECURSION" →
  has (macros st) "RT_DEVICE_COMPILATION".
Proof.
  intros Hg st. subst st. unfold has. open_header Hg. frame.
  unfold device_avoid_recursion. eval_conds. frame.
  unfold device_compilation. eval_conds. frame.
  decide_conds; intros [? ?]; try done; try discriminate; tauto.
Qed.

Lemma avoid_recursion_implies_device_compilation_witness :
  has (macros (api_attrs_h (init nvcc_device))) "RT_DEVICE_COMPILATION".
Proof.
  apply (avoid_recursion_implies_device_compilation nvcc_device);
    [reflexivity | vm_compute; eauto].
Defined.

(** ** Per-declaration attributes (lines 89-122) *)

(** C7: on a first inclusion with RT_API_ATTRS not defined by the
    including file, RT_API_ATTRS is [__host__ __device__] whenever a CUDA
    compiler macro is defined, in either pass, and empty otherwise. *)
Theorem api_attrs_expansion (m : gmap string macro) :
  m !! include_guard = None →
  m !! "RT_API_ATTRS" = None →
  let st := api_attrs_h (init m) in
  (dual_compilation m →
     defined_as st "RT_API_ATTRS" [Ident "__host__"; Ident "__device__"]) ∧
  (¬ dual_compilation m → defined_as st "RT_API_ATTRS" []).
Proof.
  intros Hg Hx st. subst st. unfold defined_as. open_header Hg. frame.
  unfold api_attrs. eval_conds. frame. rewrite Hx.
  unfold dual_compilation, has.
  decide_conds; split; intros; try done; try tauto.
  all: match goal with H : is_Some None |- _ => by destruct H end.
Qed.

Lemma api_attrs_expansion_witness :
  defined_as (api_attrs_h (init nvcc_host)) "RT_API_ATTRS"
    [Ident "__host__"; Ident "__device__"].
Proof.
  apply (api_attrs_expansion nvcc_host); [reflexivity | reflexivity |].
  left. vm_compute. eauto.
Defined.

(** C8: on a first inclusion with neither macro defined by the including
    file, RT_CONST_VAR_ATTRS is [__constant__] and RT_VAR_ATTRS is
    [__device__] in the device pass of a CUDA compilation, and both are
    empty in every other configuration. *)
Theorem var_attrs_expansion (m : gmap string macro) :
  m !! include_guard = None →
  m !! "RT_CONST_VAR_ATTRS" = None →
  m !! "RT_VAR_ATTRS" = None →
  let st := api_attrs_h (init m) in
  (device_phase m →
     defined_as st "RT_CONST_VAR_ATTRS" [Ident "__constant__"] ∧
     defined_as st "RT_VAR_ATTRS" [Ident "__device__"]) ∧
  (¬ device_phase m →
     defined_as st "RT_CONST_VAR_ATTRS" [] ∧ defined_as st "RT_VAR_ATTRS" []).
Proof.
  intros Hg Hc Hv st. subst st. unfold defined_as. open_header Hg. frame.
  unfold var_attrs. eval_conds. frame.
  unfold const_var_attrs. eval_conds. frame. rewrite Hc, Hv.
  unfold device_phase, dual_compilation, has.
  decide_conds; repeat split; intros; try done; try tauto.
  all: match goal with H : is_Some None |- _ => by destruct H end.
Qed.

Lemma var_attrs_expansion_witness :
  defined_as (api_attrs_h (init nvcc_device)) "RT_CONST_VAR_ATTRS"
    [Ident "__constant__"] ∧
  defined_as (api_attrs_h (init nvcc_device)) "RT_VAR_ATTRS" [Ident "__device__"].
Proof.
  apply (var_attrs_expansion nvcc_device); [reflexivity .. |].
  split; [left |]; vm_compute; eauto.
Defined.

(** ** Group delimiters (lines 26-79) *)

(** C1: on a first inclusion with the pair not defined by the including
    file: with OMP_NOHOST_BUILD, BEGIN is the pragma opening a
    declare-target region of device type nohost and END the pragma closing
    a declare-target region; with OMP_OFFLOAD_BUILD and no
    OMP_NOHOST_BUILD, BEGIN is the declare-target pragma and END the
    closing one; with neither, both are empty. *)
Theorem ext_api_group_expansion (m : gmap string macro) :
  m !! include_guard = None →
  m !! "RT_EXT_API_GROUP_BEGIN" = None →
  m !! "RT_EXT_API_GROUP_END" = None →
  let st := api_attrs_h (init m) in
  (has m "OMP_NOHOST_BUILD" →
     defined_as st "RT_EXT_API_GROUP_BEGIN"
       (pragma "omp begin declare target device_type(nohost)") ∧
     defined_as st "RT_EXT_API_GROUP_END" (pragma "omp end declare target")) ∧
  (has m "OMP_OFFLOAD_BUILD" → ¬ has m "OMP_NOHOST_BUILD" →
     defined_as st "RT_EXT_API_GROUP_BEGIN" (pragma "omp declare target") ∧
     defined_as st "RT_EXT_API_GROUP_END" (pragma "omp end declare target")) ∧
  (¬ has m "OMP_NOHOST_BUILD" → ¬ has m "OMP_OFFLOAD_BUILD" →
     defined_as st "RT_EXT_API_GROUP_BEGIN" [] ∧
     defined_as st "RT_EXT_API_GROUP_END" []).
Proof.
  intros Hg Hb He st. subst st. unfold defined_as. open_header Hg. frame.
  unfold ext_api_group_end. eval_conds. frame.
  unfold ext_api_group_begin. eval_conds. frame. rewrite Hb, He.
  unfold has.
  decide_conds; repeat split; intros; try done; try tauto.
  all: match goal with H : is_Some None |- _ => by destruct H end.
Qed.

Lemma ext_api_group_expansion_witness :
  defined_as (api_attrs_h (init clang_amdgcn_nohost)) "RT_EXT_API_GROUP_BEGIN"
    (pragma "omp begin declare target device_type(nohost)") ∧
  defined_as (api_attrs_h (init clang_amdgcn_nohost)) "RT_EXT_API_GROUP_END"
    (pragma "omp end declare target").
Proof.
  apply (ext_api_group_expansion clang_amdgcn_nohost); [reflexivity .. |].
  vm_compute. eauto.
Defined.

(** ** No-inline variants (lines 165-179) *)




(** ** Overriding by the including file *)

Ltac untouched_by g Hx :=
  frame; unfold g; eval_conds; frame; rewrite Hx;
  rewrite (bool_decide_eq_true_2 (is_Some (Some _))) by eauto;
  cbn [negb andb]; frame; try exact Hx.

(** C4, as the header has it: the macros it defines under [#ifndef]
    (RT_EXT_API_GROUP_BEGIN/END, RT_VAR_GROUP_BEGIN/END, RT_API_ATTRS,
    RT_CONST_VAR_ATTRS, RT_VAR_ATTRS) and the endianness flags keep the
    definition the including file gave them. *)
Theorem guarded_macros_untouched (m : gmap string macro) (x : string) (d : macro) :
  x ∈ guarded_macros →
  m !! x = Some d →
  macros (api_attrs_h (init m)) !! x = Some d.
Proof.
  intros Hin Hx.
  destruct (m !! include_guard) as [g|] eqn:Hg.
  { rewrite api_attrs_h_again; [done | by exists g]. }
  open_header Hg. unfold guarded_macros in Hin.
  repeat (apply elem_of_cons in Hin as [-> | Hin]).
  - untouched_by ext_api_group_begin Hx.
  - untouched_by ext_api_group_end Hx.
  - untouched_by var_group_begin Hx.
  - untouched_by var_group_end Hx.
  - untouched_by api_attrs Hx.
  - untouched_by const_var_attrs Hx.
  - untouched_by var_attrs Hx.
  - untouched_by endianness Hx.
  - untouched_by endianness Hx.
    rewrite andb_false_r. frame. exact Hx.
  - by apply elem_of_nil in Hin.
Qed.

Lemma guarded_macros_untouched_witness :
  macros (api_attrs_h (init both_flags_preset)) !! "FLANG_BIG_ENDIAN"
  = Some (Obj [Number 1]).
Proof.
  apply (guarded_macros_untouched both_flags_preset "FLANG_BIG_ENDIAN").
  - unfold guarded_macros. set_solver.
  - reflexivity.
Defined.

(** C4 as claimed fails: RT_DEVICE_COMPILATION defined by the including
    file is undefined by a host build's inclusion, and its RT_DIAG_PUSH is
    replaced by the header's. *)
Lemma override_counterexample :
  let st := api_attrs_h (init consumer_overrides) in
  consumer_overrides !! "RT_DEVICE_COMPILATION" = Some (Obj [Number 1]) ∧
  macros st !! "RT_DEVICE_COMPILATION" = None ∧
  consumer_overrides !! "RT_DIAG_PUSH" = Some (Obj (pragma "GCC diagnostic push")) ∧
  macros st !! "RT_DIAG_PUSH" = Some (Obj []).
Proof. vm_compute. done. Qed.

(** ** Macro replacement: fuel *)

Lemma expansion_app_fuel a b :
  expansion_app a b ≠ OutOfFuel →
  a ≠ OutOfFuel ∧ ((∃ x, a = Expanded x) → b ≠ OutOfFuel).
Proof.
  destruct a as [x| |]; cbn; intros H.
  - split; [done |]. intros _. by destruct b.
  - split; [done |]. intros [? ?]. discriminate.
  - done.
Qed.

Lemma expansion_app_no_fuel_needed a b :
  a ≠ OutOfFuel → b ≠ OutOfFuel → expansion_app a b ≠ OutOfFuel.
Proof. by destruct a, b. Qed.

Section fuel.
Variable m : gmap string macro.

Lemma expand_tokens_mono (f g : gset string → list token → expansion) :
  (∀ h body, f h body ≠ OutOfFuel → g h body = f h body) →
  ∀ hide ts,
    expand_tokens m f hide ts ≠ OutOfFuel →
    expand_tokens m g hide ts = expand_tokens m f hide ts.
Proof.
  intros Hfg hide ts. induction ts as [|t rest IH]; [done |].
  assert (Hplain : ∀ u : token,
    expansion_app (Expanded [u]) (expand_tokens m f hide rest) ≠ OutOfFuel →
    expansion_app (Expanded [u]) (expand_tokens m g hide rest)
    = expansion_app (Expanded [u]) (expand_tokens m f hide rest)).
  { intros u Hu. apply expansion_app_fuel in Hu as [_ Hu].
    rewrite IH; [done | eauto]. }
  destruct t as [x| | |]; cbn [expand_tokens]; try apply Hplain.
  case_decide; [apply Hplain |].
  destruct (m !! x) as [[body| |]|]; [| done | done | apply Hplain].
  intros Happ. apply expansion_app_fuel in Happ as [Hbody Hrest].
  rewrite (Hfg _ _ Hbody).
  destruct (f ({[x]} ∪ hide) body) as [y| |] eqn:Hf; [| done ..].
  rewrite IH; [done | eauto].
Qed.

Lemma expand_fuel_S n hide ts :
  expand_fuel n m hide ts ≠ OutOfFuel →
  expand_fuel (S n) m hide ts = expand_fuel n m hide ts.
Proof.
  revert hide ts. induction n as [|n IH]; intros hide ts H; [done |].
  change (expand_tokens m (expand_fuel (S n) m) hide ts
          = expand_tokens m (expand_fuel n m) hide ts).
  apply expand_tokens_mono; [| exact H].
  intros h body Hb. by apply IH.
Qed.

Lemma expand_fuel_le n n' hide ts :
  (n ≤ n')%nat →
  expand_fuel n m hide ts ≠ OutOfFuel →
  expand_fuel n' m hide ts = expand_fuel n m hide ts.
Proof.
  induction 1 as [|k Hle IH]; [done |]. intros H.
  rewrite expand_fuel_S; rewrite IH; done.
Qed.

Lemma expand_fuel_terminates n hide ts :
  (size (dom m ∖ hide) < n)%nat → expand_fuel n m hide ts ≠ OutOfFuel.
Proof.
  revert hide ts. induction n as [|n IH]; intros hide ts Hn; [lia |].
  cbn [expand_fuel].
  induction ts as [|t rest IHts]; [done |].
  destruct t as [x| | |]; cbn [expand_tokens];
    try (by apply expansion_app_no_fuel_needed).
  case_decide as Hhide; [by apply expansion_app_no_fuel_needed |].
  destruct (m !! x) as [[body| |]|] eqn:Hx;
    [| done | done | by apply expansion_app_no_fuel_needed].
  apply expansion_app_no_fuel_needed; [| done].
  apply IH.
  assert (Hsub : dom m ∖ ({[x]} ∪ hide) ⊂ dom m ∖ hide).
  { assert (Hdom : x ∈ dom m) by (apply elem_of_dom; eauto).
    split.
    - intros y Hy. apply elem_of_difference in Hy as [Hy1 Hy2].
      apply elem_of_difference. split; [done |].
      intros Hh. apply Hy2, elem_of_union. by right.
    - intros Hsub. assert (Hx' : x ∈ dom m ∖ ({[x]} ∪ hide)).
      { apply Hsub, elem_of_difference. by split. }
      apply elem_of_difference in Hx' as [_ Hx']. apply Hx', elem_of_union.
      left. by apply elem_of_singleton. }
  apply subset_size in Hsub. lia.
Qed.
End fuel.

Lemma expand_hiding_fuel n m hide ts :
  expand_fuel n m hide ts ≠ OutOfFuel →
  expand_hiding m hide ts = expand_fuel n m hide ts.
Proof.
  intros H. unfold expand_hiding.
  assert (Hfull : expand_fuel (S (size (dom m))) m hide ts ≠ OutOfFuel).
  { apply expand_fuel_terminates.
    assert (size (dom m ∖ hide) ≤ size (dom m))%nat.
    { apply subseteq_size. intros y Hy.
      by apply elem_of_difference in Hy as [Hy _]. }
    lia. }
  destruct (decide (n ≤ S (size (dom m)))%nat) as [Hle|Hgt].
  - by apply expand_fuel_le.
  - symmetry. apply expand_fuel_le; [lia | done].
Qed.

(** ** Macro replacement: object-like macros and aliases *)

Lemma inert_pragma m text : m !! "_Pragma" = None → inert m (pragma text).
Proof.
  intros H y Hy. unfold pragma in Hy.
  repeat (apply elem_of_cons in Hy as [Hy | Hy]; [by simplify_eq |]).
  by apply elem_of_nil in Hy.
Qed.

Lemma inert_nil m : inert m [].
Proof. intros y Hy. by apply elem_of_nil in Hy. Qed.

Lemma expand_tokens_inert m f hide ts :
  inert m ts → expand_tokens m f hide ts = Expanded ts.
Proof.
  induction ts as [|t rest IH]; intros Hin; [done |].
  assert (Hrest : expand_tokens m f hide rest = Expanded rest).
  { apply IH. intros y Hy. apply Hin. by apply elem_of_cons; right. }
  destruct t as [x| | |]; cbn [expand_tokens]; rewrite Hrest; try done.
  rewrite (Hin x) by (apply elem_of_cons; by left).
  by case_decide.
Qed.

Lemma expand_object m x body :
  m !! x = Some (Obj body) → inert m body →
  expand m [Ident x] = Expanded body.
Proof.
  intros Hx Hbody.
  assert (H2 : expand_fuel 2 m ∅ [Ident x] = Expanded body).
  { cbn [expand_fuel expand_tokens].
    case_decide as Hin; [by apply not_elem_of_empty in Hin |]. rewrite Hx.
    rewrite expand_tokens_inert by done. cbn. by rewrite app_nil_r. }
  unfold expand. rewrite (expand_hiding_fuel 2); by rewrite H2.
Qed.

Lemma expand_alias m a e body :
  m !! a = Some (Obj [Ident e]) → a ≠ e →
  m !! e = Some (Obj body) → inert m body →
  expand m [Ident a] = Expanded body.
Proof.
  intros Ha Hne He Hbody.
  assert (H3 : expand_fuel 3 m ∅ [Ident a] = Expanded body).
  { cbn [expand_fuel expand_tokens].
    case_decide as Hin; [by apply not_elem_of_empty in Hin |]. rewrite Ha.
    cbn [expand_fuel expand_tokens].
    case_decide as Hin';
      [apply elem_of_union in Hin' as [Hin' | Hin'];
         [by apply elem_of_singleton in Hin' | by apply not_elem_of_empty in Hin']
      |].
    rewrite He.
    rewrite expand_tokens_inert by done. cbn. by rewrite !app_nil_r. }
  unfold expand. rewrite (expand_hiding_fuel 3); by rewrite H3.
Qed.

(** ** The alias pairs (lines 54-79) *)

Lemma ext_api_group_bodies (m : gmap string macro) :
  m !! include_guard = None →
  m !! "RT_EXT_API_GROUP_BEGIN" = None →
  m !! "RT_EXT_API_GROUP_END" = None →
  m !! "_Pragma" = None →
  let st := api_attrs_h (init m) in
  ∃ b e, defined_as st "RT_EXT_API_GROUP_BEGIN" b ∧
         defined_as st "RT_EXT_API_GROUP_END" e ∧
         inert (macros st) b ∧ inert (macros st) e.
Proof.
  intros Hg Hb He Hp st.
  assert (Hp' : macros st !! "_Pragma" = None).
  { subst st. open_header Hg. by frame. }
  assert (Hcases : ∀ ts, ts = [] ∨ (∃ text, ts = pragma text) →
                         inert (macros st) ts).
  { intros ts [-> | [text ->]]; [apply inert_nil | by apply inert_pragma]. }
  assert (∃ b e, defined_as st "RT_EXT_API_GROUP_BEGIN" b ∧
                 defined_as st "RT_EXT_API_GROUP_END" e ∧
                 (b = [] ∨ ∃ text, b = pragma text) ∧
                 (e = [] ∨ ∃ text, e = pragma text)) as (b & e & ? & ? & ? & ?);
    [| by eauto 10].
  subst st. unfold defined_as. open_header Hg. frame.
  unfold ext_api_group_end. eval_conds. frame.
  unfold ext_api_group_begin. eval_conds. frame. rewrite Hb, He.
  decide_conds; try (match goal with H : is_Some None |- _ => by destruct H end);
    eauto 12.
Qed.

Lemma alias_definitions (m : gmap string macro) :
  m !! include_guard = None →
  m !! "RT_VAR_GROUP_BEGIN" = None →
  m !! "RT_VAR_GROUP_END" = None →
  let st := api_attrs_h (init m) in
  (∀ a, a ∈ begin_aliases → defined_as st a [Ident "RT_EXT_API_GROUP_BEGIN"]) ∧
  (∀ a, a ∈ end_aliases → defined_as st a [Ident "RT_EXT_API_GROUP_END"]).
Proof.
  intros Hg Hb He st. subst st. unfold defined_as, begin_aliases, end_aliases.
  open_header Hg.
  split; intros a Ha;
    repeat (apply elem_of_cons in Ha as [-> | Ha]);
    try (by apply elem_of_nil in Ha); frame.
  - unfold offload_api_group. eval_conds. frame. apply lookup_define.
  - unfold offload_var_group. eval_conds. frame. apply lookup_define.
  - unfold var_group_begin. eval_conds. frame. rewrite Hb.
    decide_conds; [by match goal with H : is_Some None |- _ => destruct H end | done].
  - unfold offload_api_group. eval_conds. apply lookup_define.
  - unfold offload_var_group. eval_conds. apply lookup_define.
  - unfold var_group_end. eval_conds. frame. rewrite He.
    decide_conds; [by match goal with H : is_Some None |- _ => destruct H end | done].
Qed.

(** C9: on a first inclusion where the including file defines neither the
    exported-function pair, nor RT_VAR_GROUP_BEGIN/END, nor [_Pragma] as a
    macro: each of RT_OFFLOAD_API_GROUP_BEGIN, RT_OFFLOAD_VAR_GROUP_BEGIN
    and RT_VAR_GROUP_BEGIN expands to the same token sequence as
    RT_EXT_API_GROUP_BEGIN, and likewise for the END macros. *)
Theorem group_aliases_expand_alike (m : gmap string macro) :
  m !! include_guard = None →
  m !! "RT_EXT_API_GROUP_BEGIN" = None →
  m !! "RT_EXT_API_GROUP_END" = None →
  m !! "RT_VAR_GROUP_BEGIN" = None →
  m !! "RT_VAR_GROUP_END" = None →
  m !! "_Pragma" = None →
  let env := macros (api_attrs_h (init m)) in
  ∃ b e,
    expand env [Ident "RT_EXT_API_GROUP_BEGIN"] = Expanded b ∧
    expand env [Ident "RT_EXT_API_GROUP_END"] = Expanded e ∧
    (∀ a, a ∈ begin_aliases → expand env [Ident a] = Expanded b) ∧
    (∀ a, a ∈ end_aliases → expand env [Ident a] = Expanded e).
Proof.
  intros Hg Hb He Hvb Hve Hp env.
  destruct (ext_api_group_bodies m Hg Hb He Hp) as (b & e & Hdb & Hde & Hib & Hie).
  destruct (alias_definitions m Hg Hvb Hve) as [Hab Hae].
  exists b, e. repeat split.
  - by apply expand_object.
  - by apply expand_object.
  - intros a Ha. apply (expand_alias env a "RT_EXT_API_GROUP_BEGIN"); try done.
    + by apply Hab.
    + unfold begin_aliases in Ha.
      repeat (apply elem_of_cons in Ha as [-> | Ha]); try done.
      by apply elem_of_nil in Ha.
  - intros a Ha. apply (expand_alias env a "RT_EXT_API_GROUP_END"); try done.
    + by apply Hae.
    + unfold end_aliases in Ha.
      repeat (apply elem_of_cons in Ha as [-> | Ha]); try done.
      by apply elem_of_nil in Ha.
Qed.

Lemma group_aliases_expand_alike_witness :
  ∃ b e,
    expand (macros (api_attrs_h (init clang_amdgcn)))
      [Ident "RT_EXT_API_GROUP_BEGIN"] = Expanded b ∧
    expand (macros (api_attrs_h (init clang_amdgcn)))
      [Ident "RT_EXT_API_GROUP_END"] = Expanded e ∧
    (∀ a, a ∈ begin_aliases →
       expand (macros (api_attrs_h (init clang_amdgcn))) [Ident a] = Expanded b) ∧
    (∀ a, a ∈ end_aliases →
       expand (macros (api_attrs_h (init clang_amdgcn))) [Ident a] = Expanded e).
Proof. apply (group_aliases_expand_alike clang_amdgcn); reflexivity. Defined.

(** ** Diagnostics *)

Lemma no_error_init m : no_error (init m).
Proof. intros msg H. by apply elem_of_nil in H. Qed.

Lemma no_error_report_bad st : no_error st → no_error (report BadIfExpr st).
Proof.
  intros H msg Hin. cbn in Hin. apply elem_of_app in Hin as [Hin | Hin].
  - by apply (H msg).
  - apply list_elem_of_singleton in Hin. discriminate.
Qed.

Lemma quiet_skip : quiet skip.
Proof. intros st H. exact H. Qed.

Lemma redefinition_cases name d st :
  redefinition name d st = [] ∨ redefinition name d st = [Redefinition name].
Proof.
  unfold redefinition. destruct (macros st !! name) as [old|]; [| by left].
  destruct (decide (old = d)); [by left | by right].
Qed.

Lemma quiet_set_macro name d : quiet (set_macro name d).
Proof.
  intros st H msg Hin. unfold set_macro in Hin. cbn [diags] in Hin.
  apply elem_of_app in Hin as [Hin | Hin]; [by apply (H msg) |].
  destruct (redefinition_cases name d st) as [Hr | Hr]; rewrite Hr in Hin.
  - by apply elem_of_nil in Hin.
  - apply list_elem_of_singleton in Hin. discriminate.
Qed.

Lemma quiet_define name body : quiet (define name body).
Proof. apply quiet_set_macro. Qed.

Lemma quiet_define_fn name ps body : quiet (define_fn name ps body).
Proof. apply quiet_set_macro. Qed.

Lemma quiet_undef name : quiet (undef name).
Proof. intros st H. exact H. Qed.

Lemma quiet_seq d1 d2 : quiet d1 → quiet d2 → quiet (d1 ;; d2).
Proof. intros H1 H2 st Hst. apply H2, H1, Hst. Qed.

Lemma quiet_pp_if c a b : quiet a → quiet b → quiet (pp_if c a b).
Proof.
  intros Ha Hb st Hst. unfold pp_if.
  destruct (c st) as [[]|]; [by apply Ha | by apply Hb |].
  by apply Hb, no_error_report_bad.
Qed.

Lemma quiet_ifndef name d : quiet d → quiet (ifndef name d).
Proof. intros. apply quiet_pp_if; [done | apply quiet_skip]. Qed.

Lemma quiet_before_endianness : quiet before_endianness.
Proof.
  unfold_groups.
  repeat first
    [ apply quiet_seq | apply quiet_pp_if | apply quiet_ifndef
    | apply quiet_skip | apply quiet_define | apply quiet_define_fn
    | apply quiet_undef ].
Qed.

Lemma no_error_at_endianness m : no_error (at_endianness m).
Proof.
  unfold at_endianness. apply quiet_before_endianness.
  apply quiet_define, no_error_init.
Qed.

(** ** Endianness (lines 192-207) *)

Lemma windows_spec st :
  ∃ b, windows st = Some b ∧ (b = true ↔ windows_platform (macros st)).
Proof.
  eexists. split; [reflexivity |].
  unfold windows_platform, has.
  rewrite orb_true_iff, !bool_decide_eq_true. done.
Qed.

Lemma byte_order_is_true st order :
  byte_order_is order st = Some true ↔ byte_order_equals st order.
Proof.
  unfold byte_order_is, byte_order_equals, cand, ceq, defined, has.
  destruct (bool_decide_reflect (is_Some (macros st !! "__BYTE_ORDER__")));
    destruct (ident "__BYTE_ORDER__" st) as [x|], (ident order st) as [y|];
    cbn [andb]; split;
    try (intros [= H]); try (intros [? (v & ? & ?)]); try done.
  - apply Z.eqb_eq in H as ->. eauto.
  - simplify_eq. by rewrite Z.eqb_refl.
Qed.

Lemma endianness_preset st :
  has (macros st) "FLANG_LITTLE_ENDIAN" ∨ has (macros st) "FLANG_BIG_ENDIAN" →
  endianness st = st.
Proof.
  intros H. unfold endianness, pp_if, cand, cnot, defined, has in *.
  cbn [fmap option_fmap option_map].
  destruct H as [H | H]; rewrite (bool_decide_eq_true_2 _ H); cbn [negb andb].
  - done.
  - by rewrite andb_false_r.
Qed.

Lemma endianness_unset_eq st :
  macros st !! "FLANG_LITTLE_ENDIAN" = None →
  macros st !! "FLANG_BIG_ENDIAN" = None →
  endianness st =
  pp_if windows
    (define "FLANG_LITTLE_ENDIAN" [Number 1])
    (pp_if (byte_order_is "__ORDER_LITTLE_ENDIAN__")
       (define "FLANG_LITTLE_ENDIAN" [Number 1])
       (pp_if (byte_order_is "__ORDER_BIG_ENDIAN__")
          (define "FLANG_BIG_ENDIAN" [Number 1])
          (error unknown_endianness))) st.
Proof.
  intros HL HB. unfold endianness. unfold pp_if at 1.
  unfold cand, cnot, defined. rewrite HL, HB.
  rewrite (bool_decide_eq_false_2 (is_Some None)) by (intros [? ?]; done).
  reflexivity.
Qed.

Ltac byte_order_facts :=
  repeat match goal with
  | H : byte_order_equals _ _ |- _ => apply byte_order_is_true in H
  | H : ¬ byte_order_equals _ _ |- _ => rewrite <- byte_order_is_true in H
  end.

Lemma byte_order_is_not_true st order :
  byte_order_is order st ≠ Some true ↔ ¬ byte_order_equals st order.
Proof. by rewrite byte_order_is_true. Qed.

(** What lines 197-205 do when neither flag is set: [pre] is the state
    they start from, up to the diagnostics of tests that could not be
    evaluated. *)
Lemma endianness_unset_outcome st :
  macros st !! "FLANG_LITTLE_ENDIAN" = None →
  macros st !! "FLANG_BIG_ENDIAN" = None →
  ∃ pre, macros pre = macros st ∧ (no_error st → no_error pre) ∧
    (((windows_platform (macros st) ∨
       byte_order_equals st "__ORDER_LITTLE_ENDIAN__") ∧
      endianness st = define "FLANG_LITTLE_ENDIAN" [Number 1] pre) ∨
     (¬ windows_platform (macros st) ∧
      ¬ byte_order_equals st "__ORDER_LITTLE_ENDIAN__" ∧
      byte_order_equals st "__ORDER_BIG_ENDIAN__" ∧
      endianness st = define "FLANG_BIG_ENDIAN" [Number 1] pre) ∨
     (¬ windows_platform (macros st) ∧
      ¬ byte_order_equals st "__ORDER_LITTLE_ENDIAN__" ∧
      ¬ byte_order_equals st "__ORDER_BIG_ENDIAN__" ∧
      endianness st = error unknown_endianness pre)).
Proof.
  intros HL HB. remember (endianness st) as r eqn:Hr.
  rewrite endianness_unset_eq in Hr by done.
  destruct (windows_spec st) as (bw & Hw & Hwi).
  assert (Hbad := no_error_report_bad st).
  assert (Hbad2 := no_error_report_bad (report BadIfExpr st)).
  unfold pp_if in Hr. rewrite Hw in Hr.
  change (byte_order_is "__ORDER_BIG_ENDIAN__" (report BadIfExpr st))
    with (byte_order_is "__ORDER_BIG_ENDIAN__" st) in Hr.
  destruct bw.
  { exists st. split_and!; [done | tauto |]. left. split; [left; tauto | done]. }
  assert (¬ windows_platform (macros st)) by (rewrite <- Hwi; done).
  destruct (byte_order_is "__ORDER_LITTLE_ENDIAN__" st) as [[]|] eqn:HLE.
  { exists st. split_and!; [done | tauto |]. left.
    split; [right; by apply byte_order_is_true | done]. }
  - assert (¬ byte_order_equals st "__ORDER_LITTLE_ENDIAN__")
      by (apply byte_order_is_not_true; congruence).
    destruct (byte_order_is "__ORDER_BIG_ENDIAN__" st) as [[]|] eqn:HBE.
    + exists st. split_and!; [done | tauto |]. right; left.
      split_and!; try done. by apply byte_order_is_true.
    + exists st. split_and!; [done | tauto |]. right; right.
      split_and!; try done. apply byte_order_is_not_true; congruence.
    + exists (report BadIfExpr st). split_and!; [done | tauto |]. right; right.
      split_and!; try done. apply byte_order_is_not_true; congruence.
  - assert (¬ byte_order_equals st "__ORDER_LITTLE_ENDIAN__")
      by (apply byte_order_is_not_true; congruence).
    destruct (byte_order_is "__ORDER_BIG_ENDIAN__" st) as [[]|] eqn:HBE.
    + exists (report BadIfExpr st). split_and!; [done | tauto |]. right; left.
      split_and!; try done. by apply byte_order_is_true.
    + exists (report BadIfExpr st). split_and!; [done | tauto |]. right; right.
      split_and!; try done. apply byte_order_is_not_true; congruence.
    + exists (report BadIfExpr (report BadIfExpr st)).
      split_and!; [done | tauto |]. right; right.
      split_and!; try done. apply byte_order_is_not_true; congruence.
Qed.

Lemma endianness_unset st :
  macros st !! "FLANG_LITTLE_ENDIAN" = None →
  macros st !! "FLANG_BIG_ENDIAN" = None →
  no_error st →
  let st' := endianness st in
  (windows_platform (macros st) ∨ byte_order_equals st "__ORDER_LITTLE_ENDIAN__" →
     defined_as st' "FLANG_LITTLE_ENDIAN" [Number 1] ∧
     macros st' !! "FLANG_BIG_ENDIAN" = None ∧ no_error st') ∧
  (¬ windows_platform (macros st) →
   ¬ byte_order_equals st "__ORDER_LITTLE_ENDIAN__" →
   byte_order_equals st "__ORDER_BIG_ENDIAN__" →
     defined_as st' "FLANG_BIG_ENDIAN" [Number 1] ∧
     macros st' !! "FLANG_LITTLE_ENDIAN" = None ∧ no_error st') ∧
  (¬ windows_platform (macros st) →
   ¬ byte_order_equals st "__ORDER_LITTLE_ENDIAN__" →
   ¬ byte_order_equals st "__ORDER_BIG_ENDIAN__" →
     ErrorDirective unknown_endianness ∈ diags st' ∧
     macros st' !! "FLANG_LITTLE_ENDIAN" = None ∧
     macros st' !! "FLANG_BIG_ENDIAN" = None).
Proof.
  intros HL HB Hne st'. subst st'.
  destruct (endianness_unset_outcome st HL HB)
    as (pre & Hpre & Hq & [[Hc ->] | [(HW & HLE & HBE & ->) | (HW & HLE & HBE & ->)]]).
  - split_and!; intros; try tauto; split_and!;
      [apply lookup_define | frame; by rewrite Hpre | by apply quiet_define, Hq].
  - split_and!; intros; try tauto; split_and!;
      [apply lookup_define | frame; by rewrite Hpre | by apply quiet_define, Hq].
  - split_and!; intros; try tauto; split_and!;
      unfold error, report; cbn [diags macros]; rewrite ?Hpre; try done.
    apply elem_of_app. right. by apply list_elem_of_singleton.
Qed.

Lemma byte_order_equals_dec st order :
  byte_order_equals st order ∨ ¬ byte_order_equals st order.
Proof.
  destruct (byte_order_is order st) as [[]|] eqn:H.
  - left. by apply byte_order_is_true.
  - right. apply byte_order_is_not_true. congruence.
  - right. apply byte_order_is_not_true. congruence.
Qed.

Lemma windows_platform_dec m : windows_platform m ∨ ¬ windows_platform m.
Proof.
  unfold windows_platform, has.
  destruct (m !! "_MSC_VER"), (m !! "_WIN32"); eauto;
    right; intros [[? ?] | [? ?]]; discriminate.
Qed.

Lemma at_endianness_flags m :
  macros (at_endianness m) !! "FLANG_LITTLE_ENDIAN" = m !! "FLANG_LITTLE_ENDIAN" ∧
  macros (at_endianness m) !! "FLANG_BIG_ENDIAN" = m !! "FLANG_BIG_ENDIAN".
Proof. unfold at_endianness. by frame. Qed.

Lemma at_endianness_windows m :
  windows_platform (macros (at_endianness m)) ↔ windows_platform m.
Proof. unfold windows_platform, has, at_endianness. by frame. Qed.

(** C2: on a first inclusion with neither flag set, the header defines
    FLANG_LITTLE_ENDIAN (as 1) if _MSC_VER or _WIN32 is defined; otherwise
    if __BYTE_ORDER__ is defined and equals __ORDER_LITTLE_ENDIAN__;
    otherwise it defines FLANG_BIG_ENDIAN if __BYTE_ORDER__ is defined
    and equals __ORDER_BIG_ENDIAN__; otherwise it reports the error
    [unknown_endianness] and defines neither.  The comparisons are made in
    the macro table as it is at line 199, [at_endianness m], for
    byte-order macros that are integer literals below 2^63 or undefined
    there ([plain_byte_order]). *)
Theorem endianness_decision_order (m : gmap string macro) :
  m !! include_guard = None →
  m !! "FLANG_LITTLE_ENDIAN" = None →
  m !! "FLANG_BIG_ENDIAN" = None →
  let st := api_attrs_h (init m) in
  let here := at_endianness m in
  (windows_platform m →
     defined_as st "FLANG_LITTLE_ENDIAN" [Number 1] ∧
     macros st !! "FLANG_BIG_ENDIAN" = None ∧ no_error st) ∧
  (¬ windows_platform m → plain_byte_order here →
     (byte_order_equals here "__ORDER_LITTLE_ENDIAN__" →
        defined_as st "FLANG_LITTLE_ENDIAN" [Number 1] ∧
        macros st !! "FLANG_BIG_ENDIAN" = None ∧ no_error st) ∧
     (¬ byte_order_equals here "__ORDER_LITTLE_ENDIAN__" →
      byte_order_equals here "__ORDER_BIG_ENDIAN__" →
        defined_as st "FLANG_BIG_ENDIAN" [Number 1] ∧
        macros st !! "FLANG_LITTLE_ENDIAN" = None ∧ no_error st) ∧
     (¬ byte_order_equals here "__ORDER_LITTLE_ENDIAN__" →
      ¬ byte_order_equals here "__ORDER_BIG_ENDIAN__" →
        ErrorDirective unknown_endianness ∈ diags st ∧
        macros st !! "FLANG_LITTLE_ENDIAN" = None ∧
        macros st !! "FLANG_BIG_ENDIAN" = None)).
Proof.
  intros Hg HL HB st here. subst st here. rewrite (api_attrs_h_first _ Hg).
  destruct (at_endianness_flags m) as [HL' HB'].
  rewrite HL in HL'. rewrite HB in HB'.
  destruct (endianness_unset (at_endianness m) HL' HB' (no_error_at_endianness m))
    as (Hlittle & Hbig & Herr).
  pose proof (at_endianness_windows m) as HWeq.
  split.
  - intros HW. apply Hlittle. left. by apply HWeq.
  - intros HW _. split_and!.
    + intros HLE. apply Hlittle. right. exact HLE.
    + intros HLE HBE. apply Hbig; [by rewrite HWeq | exact HLE | exact HBE].
    + intros HLE HBE. apply Herr; [by rewrite HWeq | exact HLE | exact HBE].
Qed.

Lemma endianness_decision_order_witness :
  defined_as (api_attrs_h (init gcc_big_endian)) "FLANG_BIG_ENDIAN" [Number 1] ∧
  macros (api_attrs_h (init gcc_big_endian)) !! "FLANG_LITTLE_ENDIAN" = None ∧
  no_error (api_attrs_h (init gcc_big_endian)).
Proof.
  refine (proj1 (proj2 (proj2 (endianness_decision_order gcc_big_endian
            _ _ _) _ _)) _ _);
    try reflexivity.
  - intros [[? H] | [? H]]; vm_compute in H; discriminate.
  - split_and!; right;
      [exists 4321 | exists 1234 | exists 4321];
      (split; [split; by vm_compute | by vm_compute]).
  - intros [_ (v & H1 & H2)]. vm_compute in H1, H2. congruence.
  - split; [vm_compute; eauto |]. exists 4321. by vm_compute.
Defined.

(** C3, as the header has it: on a first inclusion where the including
    file has not set both flags, exactly one flag is defined whenever the
    header is processed without an error; and the error
    [unknown_endianness] is reported exactly when neither flag was set,
    neither _MSC_VER nor _WIN32 is defined, and __BYTE_ORDER__ is undefined
    or equals neither order macro.  Where the header comes to compare
    them, the byte-order macros are integer literals below 2^63 or
    undefined ([plain_byte_order]). *)
Theorem endianness_totality (m : gmap string macro) :
  m !! include_guard = None →
  ¬ (has m "FLANG_LITTLE_ENDIAN" ∧ has m "FLANG_BIG_ENDIAN") →
  (¬ has m "FLANG_LITTLE_ENDIAN" → ¬ has m "FLANG_BIG_ENDIAN" →
   ¬ windows_platform m → plain_byte_order (at_endianness m)) →
  let st := api_attrs_h (init m) in
  let here := at_endianness m in
  (succeeded st → exactly_one_endianness st) ∧
  (ErrorDirective unknown_endianness ∈ diags st ↔
     ¬ has m "FLANG_LITTLE_ENDIAN" ∧ ¬ has m "FLANG_BIG_ENDIAN" ∧
     ¬ windows_platform m ∧
     ¬ byte_order_equals here "__ORDER_LITTLE_ENDIAN__" ∧
     ¬ byte_order_equals here "__ORDER_BIG_ENDIAN__").
Proof.
  intros Hg Hboth _ st here. subst st here. rewrite (api_attrs_h_first _ Hg).
  destruct (at_endianness_flags m) as [HL' HB'].
  assert (Hq := no_error_at_endianness m).
  pose proof (at_endianness_windows m) as HWeq.
  pose proof (windows_platform_dec m) as HWd.
  pose proof (byte_order_equals_dec (at_endianness m) "__ORDER_LITTLE_ENDIAN__")
    as HLEd.
  pose proof (byte_order_equals_dec (at_endianness m) "__ORDER_BIG_ENDIAN__")
    as HBEd.
  pose proof (endianness_preset (at_endianness m)) as Hpre.
  pose proof (endianness_unset (at_endianness m)) as Hun. cbv zeta in Hun.
  unfold exactly_one_endianness, defined_as, has, succeeded in *.
  rewrite HL', HB' in Hpre, Hun.
  set (PLE := byte_order_equals (at_endianness m) "__ORDER_LITTLE_ENDIAN__") in *.
  set (PBE := byte_order_equals (at_endianness m) "__ORDER_BIG_ENDIAN__") in *.
  set (PW := windows_platform (macros (at_endianness m))) in *.
  clearbody PLE PBE PW.
  destruct (m !! "FLANG_LITTLE_ENDIAN") as [l|] eqn:HL;
    [| destruct (m !! "FLANG_BIG_ENDIAN") as [b|] eqn:HB].
  - rewrite Hpre by eauto. rewrite HL', HB'. split.
    + intros _. left. split; [eauto |]. intros HB. apply Hboth. eauto.
    + split; [intros H; by apply Hq in H |].
      intros (H & _). destruct H. eauto.
  - rewrite Hpre by eauto. rewrite HL', HB'. split.
    + intros _. right. split; [by intros [? ?] | eauto].
    + split; [intros H; by apply Hq in H |].
      intros (_ & H & _). destruct H. eauto.
  - destruct (Hun eq_refl eq_refl Hq) as (Hlittle & Hbig & Herr).
    clear Hun Hpre.
    set (st' := endianness (at_endianness m)) in *. clearbody st'.
    assert (HnoneL : ¬ is_Some (@None macro)) by (by intros [? ?]).
    destruct HWd as [HW | HW]; [| destruct HLEd as [HLE | HLE];
      [| destruct HBEd as [HBE | HBE]]].
    + destruct Hlittle as (H1 & H2 & H3); [left; tauto |]. rewrite H1, H2.
      split; [intros _; left; split; [eauto | done] |].
      split; [intros H; by apply H3 in H | tauto].
    + destruct Hlittle as (H1 & H2 & H3); [by right |]. rewrite H1, H2.
      split; [intros _; left; split; [eauto | done] |].
      split; [intros H; by apply H3 in H | tauto].
    + destruct Hbig as (H1 & H2 & H3); [tauto | done | done |].
      rewrite H1, H2.
      split; [intros _; right; split; [done | eauto] |].
      split; [intros H; by apply H3 in H | tauto].
    + destruct Herr as (H1 & H2 & H3); [tauto | done | done |].
      split.
      * intros Hok. destruct (Hok _ H1) as [name Hname]. discriminate.
      * split; [intros _ | done]. split_and!; try done; tauto.
Qed.

Lemma endianness_totality_witness :
  exactly_one_endianness (api_attrs_h (init gcc_host)).
Proof.
  refine (proj1 (endianness_totality gcc_host _ _ _) _).
  - reflexivity.
  - intros [[? H] _]. vm_compute in H. discriminate.
  - intros _ _ _. split_and!; right;
      [exists 1234 | exists 1234 | exists 4321];
      (split; [split; by vm_compute | by vm_compute]).
  - assert (Hd : diags (api_attrs_h (init gcc_host)) = []) by (by vm_compute).
    intros d Hin. rewrite Hd in Hin. clear Hd.
    apply elem_of_nil in Hin. destruct Hin.
Defined.

(** C3 as claimed fails: with both flags set by the including file the
    header is processed without a diagnostic and both flags stay defined. *)
Lemma endianness_totality_counterexample :
  let st := api_attrs_h (init both_flags_preset) in
  both_flags_preset !! include_guard = None ∧
  diags st = [] ∧ ¬ exactly_one_endianness st.
Proof.
  split_and!; [reflexivity | by vm_compute |].
  intros [[_ H] | [H _]]; apply H; vm_compute; eauto.
Qed.

(** * Further properties of the header *)

(** ** Macro replacement terminates *)

Theorem expand_terminates m ts : expand m ts ≠ OutOfFuel.
Proof.
  unfold expand, expand_hiding. apply expand_fuel_terminates.
  rewrite difference_empty_L. lia.
Qed.

Lemma expand_undefined m x : m !! x = None → expand m [Ident x] = Expanded [Ident x].
Proof.
  intros Hx. unfold expand. rewrite (expand_hiding_fuel 1).
  - apply expand_tokens_inert. intros y Hy.
    apply list_elem_of_singleton in Hy. by simplify_eq.
  - cbn [expand_fuel]. rewrite expand_tokens_inert; [done |].
    intros y Hy. apply list_elem_of_singleton in Hy. by simplify_eq.
Qed.

(** ** The include guard (lines 16-17 and 209) *)

Lemma api_attrs_h_fresh st :
  macros st !! include_guard = None →
  api_attrs_h st = endianness (before_endianness (define include_guard [] st)).
Proof.
  intros H. unfold api_attrs_h, ifndef, pp_if, cnot, defined. rewrite H.
  rewrite bool_decide_eq_false_2 by (intros [? ?]; discriminate).
  reflexivity.
Qed.

Lemma guard_defined_after st : has (macros (api_attrs_h st)) include_guard.
Proof.
  destruct (macros st !! include_guard) as [g|] eqn:Hg.
  - rewrite api_attrs_h_again; unfold has; rewrite Hg; eauto.
  - rewrite (api_attrs_h_fresh _ Hg). unfold has.
    cbv beta delta [before_endianness ext_api_group var_group noinline seq].
    frame. rewrite lookup_define. eauto.
Qed.

(** Including the header a second time changes nothing: neither the macro
    table nor the diagnostics, whatever the first inclusion started from. *)
Theorem include_twice st : api_attrs_h (api_attrs_h st) = api_attrs_h st.
Proof. apply api_attrs_h_again, guard_defined_after. Qed.

(** ** What the header never touches *)

Ltac header_name_ne Hx :=
  intros <-; apply Hx; unfold header_macros; repeat constructor.

Lemma preserves_before_endianness x :
  x ∉ header_macros → preserves x before_endianness.
Proof.
  intros Hx. unfold_groups.
  repeat first
    [ apply preserves_seq | apply preserves_pp_if | apply preserves_ifndef
    | apply preserves_skip | apply preserves_report
    | apply preserves_define; header_name_ne Hx
    | apply preserves_define_fn; header_name_ne Hx
    | apply preserves_undef; header_name_ne Hx ].
Qed.

Lemma preserves_endianness x : x ∉ header_macros → preserves x endianness.
Proof.
  intros Hx. unfold_groups.
  repeat first
    [ apply preserves_pp_if | apply preserves_skip | apply preserves_report
    | apply preserves_define; header_name_ne Hx ].
Qed.

(** The header leaves every macro alone that is not one of the names it
    defines: in particular the compiler's and the build system's macros it
    tests are never defined, redefined or undefined by it. *)
Theorem header_frame st x :
  x ∉ header_macros → macros (api_attrs_h st) !! x = macros st !! x.
Proof.
  intros Hx.
  destruct (macros st !! include_guard) as [g|] eqn:Hg.
  { rewrite api_attrs_h_again; [done | by exists g]. }
  rewrite (api_attrs_h_fresh _ Hg).
  rewrite (preserves_endianness x Hx), (preserves_before_endianness x Hx).
  apply preserves_define. header_name_ne Hx.
Qed.

Lemma header_frame_witness :
  macros (api_attrs_h (init nvcc_device)) !! "__CUDA_ARCH__"
  = macros (init nvcc_device) !! "__CUDA_ARCH__".
Proof.
  apply (header_frame (init nvcc_device) "__CUDA_ARCH__").
  unfold header_macros, include_guard. apply (bool_decide_unpack _). by vm_compute.
Defined.

(** ** What the header always defines *)

Ltac defined_by g :=
  frame; unfold g; eval_conds; frame; decide_conds; frame;
  rewrite ?lookup_define; eauto.

Ltac defined_by_attribute_test g :=
  frame; unfold g, pp_if;
  repeat match goal with
  | |- context [has_attribute ?a ?s] => destruct (has_attribute a s) as [[]|]
  end;
  rewrite ?lookup_define; eauto.

(** After a first inclusion every delimiter, attribute, diagnostic,
    no-inline and optimization macro of the header is defined (possibly
    empty) in every configuration, so a use of one of them never leaves
    an undefined identifier in the source. *)
Theorem interface_always_defined (m : gmap string macro) (x : string) :
  m !! include_guard = None →
  x ∈ always_defined →
  has (macros (api_attrs_h (init m))) x.
Proof.
  intros Hg Hin. unfold has. open_header Hg. unfold always_defined in Hin.
  repeat (apply elem_of_cons in Hin as [-> | Hin]).
  - frame. rewrite lookup_define. eauto.
  - defined_by ext_api_group_begin.
  - defined_by ext_api_group_end.
  - defined_by offload_api_group.
  - defined_by offload_api_group.
  - defined_by offload_var_group.
  - defined_by offload_var_group.
  - defined_by var_group_begin.
  - defined_by var_group_end.
  - defined_by api_attrs.
  - defined_by const_var_attrs.
  - defined_by var_attrs.
  - defined_by diag_bracket.
  - defined_by diag_bracket.
  - defined_by diag_bracket.
  - frame. unfold has_attribute_fallback, define_fn, set_macro.
    eval_conds. frame. decide_conds; cbn [macros]; frame; [done |].
    rewrite lookup_insert_eq. eauto.
  - defined_by_attribute_test noinline_attr.
  - defined_by device_noinline.
  - defined_by device_noinline.
  - defined_by_attribute_test optnone.
  - by apply elem_of_nil in Hin.
Qed.

Lemma interface_always_defined_witness :
  has (macros (api_attrs_h (init msvc))) "RT_OPTNONE_ATTR".
Proof.
  apply (interface_always_defined msvc "RT_OPTNONE_ATTR"); [reflexivity |].
  unfold always_defined. set_solver.
Defined.

(** ** Recursion avoidance and diagnostics bracket (lines 142-157) *)

(** On a first inclusion RT_DEVICE_AVOID_RECURSION is defined, as 1, in
    the device pass of a CUDA compilation and undefined otherwise, also
    when the including file had defined it and also in an OpenMP offload
    pass, where RT_DEVICE_COMPILATION is defined. *)
Theorem device_avoid_recursion_iff (m : gmap string macro) :
  m !! include_guard = None →
  let st := api_attrs_h (init m) in
  (device_phase m → defined_as st "RT_DEVICE_AVOID_RECURSION" [Number 1]) ∧
  (¬ device_phase m → macros st !! "RT_DEVICE_AVOID_RECURSION" = None).
Proof.
  intros Hg st. subst st. unfold defined_as. open_header Hg. frame.
  unfold device_avoid_recursion. eval_conds. frame.
  unfold device_phase, dual_compilation, has.
  decide_conds; split; intros; try done; tauto.
Qed.

Lemma device_avoid_recursion_iff_witness :
  macros (api_attrs_h (init clang_amdgcn)) !! "RT_DEVICE_AVOID_RECURSION" = None.
Proof.
  apply (device_avoid_recursion_iff clang_amdgcn); [reflexivity |].
  intros [[[? H] | [? H]] _]; vm_compute in H; discriminate.
Defined.

(** On a first inclusion the three RT_DIAG macros are nvcc's pragmas when
    __CUDACC__ is defined and empty otherwise: __CUDA__ alone, which is
    enough for RT_API_ATTRS, does not enable them. *)
Theorem diag_bracket_expansion (m : gmap string macro) :
  m !! include_guard = None →
  let st := api_attrs_h (init m) in
  (has m "__CUDACC__" →
     defined_as st "RT_DIAG_PUSH" (pragma "nv_diagnostic push") ∧
     defined_as st "RT_DIAG_POP" (pragma "nv_diagnostic pop") ∧
     defined_as st "RT_DIAG_DISABLE_CALL_HOST_FROM_DEVICE_WARN"
       (pragma "nv_diag_suppress 20011" ++ pragma "nv_diag_suppress 20014")) ∧
  (¬ has m "__CUDACC__" →
     defined_as st "RT_DIAG_PUSH" [] ∧ defined_as st "RT_DIAG_POP" [] ∧
     defined_as st "RT_DIAG_DISABLE_CALL_HOST_FROM_DEVICE_WARN" []).
Proof.
  intros Hg st. subst st. unfold defined_as. open_header Hg. frame.
  unfold diag_bracket. eval_conds. frame. unfold has.
  decide_conds; frame; rewrite ?lookup_define;
    split_and!; intros; split_and?; try done; tauto.
Qed.

Lemma diag_bracket_expansion_witness :
  defined_as (api_attrs_h (init nvcc_host)) "RT_DIAG_PUSH"
    (pragma "nv_diagnostic push") ∧
  defined_as (api_attrs_h (init nvcc_host)) "RT_DIAG_POP"
    (pragma "nv_diagnostic pop") ∧
  defined_as (api_attrs_h (init nvcc_host))
    "RT_DIAG_DISABLE_CALL_HOST_FROM_DEVICE_WARN"
    (pragma "nv_diag_suppress 20011" ++ pragma "nv_diag_suppress 20014").
Proof.
  apply (diag_bracket_expansion nvcc_host); [reflexivity |].
  vm_compute. eauto.
Defined.

(** ** Attribute detection (lines 165-190) *)

Lemma has_attribute_builtin st known a :
  macros st !! "__has_attribute" = Some (HasAttributeBuiltin known) →
  macros st !! a = None →
  has_attribute a st = Some (bool_decide (a ∈ known)).
Proof.
  intros H Ha. unfold has_attribute. rewrite H.
  by rewrite expand_undefined.
Qed.

Lemma has_attribute_zero st a :
  macros st !! "__has_attribute" = Some (Fn ["x"] [Number 0]) →
  has_attribute a st = Some false.
Proof.
  intros H. unfold has_attribute. rewrite H.
  cbn [fmap list_fmap subst_param].
  by rewrite (expand_hiding_fuel 1).
Qed.

Lemma has_attribute_after_fallback st :
  macros (has_attribute_fallback st) !! "__has_attribute"
  = Some (default (Fn ["x"] [Number 0]) (macros st !! "__has_attribute")).
Proof.
  unfold has_attribute_fallback, define_fn, set_macro. eval_conds.
  destruct (macros st !! "__has_attribute") as [d|] eqn:H.
  - rewrite bool_decide_eq_true_2 by eauto. cbn [negb]. by rewrite H.
  - rewrite bool_decide_eq_false_2 by (by intros [? ?]).
    cbn [negb macros default]. apply lookup_insert_eq.
Qed.

(** The lookup of [__has_attribute] wherever the header tests an
    attribute on a first inclusion. *)
Ltac has_attribute_lookup Hm :=
  frame; rewrite has_attribute_after_fallback; frame; rewrite Hm;
  reflexivity.

(** With a compiler that has no [__has_attribute] (MSVC, old GCC), a
    first inclusion leaves [__has_attribute] defined, as a function-like
    macro that is always 0; RT_NOINLINE_ATTR and RT_OPTNONE_ATTR are
    empty, and RT_DEVICE_NOINLINE expands to nothing in every pass. *)
Theorem no_has_attribute (m : gmap string macro) :
  m !! include_guard = None →
  m !! "__has_attribute" = None →
  let st := api_attrs_h (init m) in
  macros st !! "__has_attribute" = Some (Fn ["x"] [Number 0]) ∧
  defined_as st "RT_NOINLINE_ATTR" [] ∧
  defined_as st "RT_OPTNONE_ATTR" [] ∧
  expand (macros st) [Ident "RT_DEVICE_NOINLINE"] = Expanded [].
Proof.
  intros Hg Hm st.
  assert (Hha : macros st !! "__has_attribute" = Some (Fn ["x"] [Number 0])).
  { subst st. open_header Hg. has_attribute_lookup Hm. }
  assert (Hni : defined_as st "RT_NOINLINE_ATTR" []).
  { subst st. unfold defined_as. open_header Hg. frame.
    unfold noinline_attr, pp_if. rewrite has_attribute_zero.
    - apply lookup_define.
    - has_attribute_lookup Hm. }
  split_and!; try done.
  - subst st. unfold defined_as. open_header Hg. frame.
    unfold optnone, pp_if. rewrite !has_attribute_zero.
    + apply lookup_define.
    + has_attribute_lookup Hm.
    + has_attribute_lookup Hm.
  - assert (Hdn : defined_as st "RT_DEVICE_NOINLINE" [Ident "RT_NOINLINE_ATTR"] ∨
                  defined_as st "RT_DEVICE_NOINLINE" []).
    { subst st. unfold defined_as. open_header Hg. frame.
      unfold device_noinline. eval_conds. frame.
      decide_conds; frame; rewrite lookup_define; eauto. }
    destruct Hdn as [Hdn | Hdn].
    + apply (expand_alias _ _ "RT_NOINLINE_ATTR"); try done. apply inert_nil.
    + apply expand_object; [done | apply inert_nil].
Qed.

Lemma no_has_attribute_witness :
  macros (api_attrs_h (init msvc)) !! "__has_attribute"
    = Some (Fn ["x"] [Number 0]) ∧
  defined_as (api_attrs_h (init msvc)) "RT_NOINLINE_ATTR" [] ∧
  defined_as (api_attrs_h (init msvc)) "RT_OPTNONE_ATTR" [] ∧
  expand (macros (api_attrs_h (init msvc))) [Ident "RT_DEVICE_NOINLINE"]
    = Expanded [].
Proof. apply (no_has_attribute msvc); reflexivity. Defined.

(** With a compiler whose built-in [__has_attribute] knows the attributes
    [known], and none of [noinline], [optimize], [optnone] defined as a
    macro, a first inclusion gives RT_NOINLINE_ATTR the noinline attribute
    exactly when it is known, and RT_OPTNONE_ATTR the GCC spelling when
    [optimize] is known, else the Clang spelling when [optnone] is known,
    else nothing: a compiler knowing both gets the GCC spelling. *)
Theorem attribute_macros_with_builtin (m : gmap string macro) (known : list string) :
  m !! include_guard = None →
  m !! "__has_attribute" = Some (HasAttributeBuiltin known) →
  attribute_names_not_macros m →
  let st := api_attrs_h (init m) in
  defined_as st "RT_NOINLINE_ATTR"
    (if bool_decide ("noinline" ∈ known) then noinline_attribute else []) ∧
  defined_as st "RT_OPTNONE_ATTR"
    (if bool_decide ("optimize" ∈ known) then optimize_O0_attribute
     else if bool_decide ("optnone" ∈ known) then optnone_attribute
     else []).
Proof.
  intros Hg Hm (Hni & Hopt & Hon) st. subst st. unfold defined_as.
  open_header Hg. split; frame.
  - unfold noinline_attr, pp_if.
    rewrite (has_attribute_builtin _ known);
      [| has_attribute_lookup Hm | frame; exact Hni].
    destruct (bool_decide ("noinline" ∈ known)); apply lookup_define.
  - unfold optnone, pp_if.
    rewrite (has_attribute_builtin _ known "optimize");
      [| has_attribute_lookup Hm | frame; exact Hopt].
    rewrite (has_attribute_builtin _ known "optnone");
      [| has_attribute_lookup Hm | frame; exact Hon].
    destruct (bool_decide ("optimize" ∈ known));
      [| destruct (bool_decide ("optnone" ∈ known))]; apply lookup_define.
Qed.

Lemma attribute_macros_with_builtin_witness :
  defined_as (api_attrs_h (init clang_amdgcn)) "RT_NOINLINE_ATTR"
    noinline_attribute ∧
  defined_as (api_attrs_h (init clang_amdgcn)) "RT_OPTNONE_ATTR"
    optnone_attribute.
Proof.
  apply (attribute_macros_with_builtin clang_amdgcn ["noinline"; "optnone"]);
    [reflexivity | reflexivity |].
  split_and!; reflexivity.
Defined.

(** RT_DEVICE_NOINLINE after a first inclusion: in the device pass of a
    CUDA compilation it expands to what RT_NOINLINE_ATTR is, the noinline
    attribute for a compiler that knows it (neither [__attribute__] nor
    [noinline] being macros); in every other build it is empty. *)
Theorem device_noinline_expansion (m : gmap string macro) (known : list string) :
  m !! include_guard = None →
  m !! "__has_attribute" = Some (HasAttributeBuiltin known) →
  "noinline" ∈ known →
  m !! "__attribute__" = None →
  m !! "noinline" = None →
  let st := api_attrs_h (init m) in
  (device_phase m →
     expand (macros st) [Ident "RT_DEVICE_NOINLINE"] = Expanded noinline_attribute) ∧
  (¬ device_phase m → defined_as st "RT_DEVICE_NOINLINE" []).
Proof.
  intros Hg Hm Hk Hattr Hno st.
  assert (Hni : defined_as st "RT_NOINLINE_ATTR" noinline_attribute).
  { subst st. unfold defined_as. open_header Hg. frame.
    unfold noinline_attr, pp_if.
    rewrite (has_attribute_builtin _ known);
      [| has_attribute_lookup Hm | frame; exact Hno].
    rewrite bool_decide_eq_true_2 by done. apply lookup_define. }
  assert (Hinert : inert (macros st) noinline_attribute).
  { assert (Ha : macros st !! "__attribute__" = None)
      by (subst st; open_header Hg; by frame).
    assert (Hn : macros st !! "noinline" = None)
      by (subst st; open_header Hg; by frame).
    intros y Hy. unfold noinline_attribute in Hy.
    repeat (apply elem_of_cons in Hy as [Hy | Hy]; [by simplify_eq |]).
    by apply elem_of_nil in Hy. }
  assert (Hdn : (device_phase m →
                   defined_as st "RT_DEVICE_NOINLINE" [Ident "RT_NOINLINE_ATTR"]) ∧
                (¬ device_phase m → defined_as st "RT_DEVICE_NOINLINE" [])).
  { subst st. unfold defined_as. open_header Hg. frame.
    unfold device_noinline. eval_conds. frame.
    unfold device_phase, dual_compilation, has.
    decide_conds; frame; rewrite lookup_define; split; intros; try done; tauto. }
  destruct Hdn as [Hdev Hhost]. split; [| exact Hhost].
  intros Hd. apply (expand_alias _ _ "RT_NOINLINE_ATTR"); try done.
  by apply Hdev.
Qed.

Lemma device_noinline_expansion_witness :
  expand (macros (api_attrs_h (init nvcc_device))) [Ident "RT_DEVICE_NOINLINE"]
  = Expanded noinline_attribute.
Proof.
  apply (device_noinline_expansion nvcc_device ["noinline"; "optimize"]);
    [reflexivity | reflexivity | set_solver | reflexivity | reflexivity |].
  split; [left |]; vm_compute; eauto.
Defined.

(** ** Byte order read off the compiler's macros *)

Lemma inert_number m v : inert m [Number v].
Proof. intros y Hy. apply list_elem_of_singleton in Hy. discriminate. Qed.

Lemma wrap64_in_range z : in_range z → wrap64 z = z.
Proof. unfold in_range, wrap64. intros H. apply Z.mod_small. lia. Qed.

Lemma ident_literal st x v :
  macros st !! x = Some (Obj [Number v]) → in_range v → ident x st = Some v.
Proof.
  intros H Hv. unfold ident.
  rewrite (expand_object _ x [Number v]); [| done | apply inert_number].
  cbn [operand_value]. by rewrite wrap64_in_range.
Qed.

Lemma ident_alias st x y v :
  macros st !! x = Some (Obj [Ident y]) → x ≠ y →
  macros st !! y = Some (Obj [Number v]) → in_range v → ident x st = Some v.
Proof.
  intros Hx Hne Hy Hv. unfold ident.
  rewrite (expand_alias _ x y [Number v]);
    [| done | done | done | apply inert_number].
  cbn [operand_value]. by rewrite wrap64_in_range.
Qed.

Lemma ident_undefined st x : macros st !! x = None → ident x st = Some 0.
Proof. intros H. unfold ident. by rewrite expand_undefined. Qed.

Lemma byte_order_is_value st order v w :
  has (macros st) "__BYTE_ORDER__" →
  ident "__BYTE_ORDER__" st = Some v → ident order st = Some w →
  byte_order_is order st = Some (v =? w).
Proof.
  intros Hd Hv Hw. unfold byte_order_is, cand, ceq, defined.
  rewrite Hv, Hw. by rewrite bool_decide_eq_true_2.
Qed.

Lemma at_endianness_frame m x :
  x ∉ header_macros → macros (at_endianness m) !! x = m !! x.
Proof.
  intros Hx. unfold at_endianness.
  rewrite (preserves_before_endianness x Hx).
  apply preserves_define. header_name_ne Hx.
Qed.

Ltac not_a_header_macro :=
  unfold header_macros, include_guard; apply (bool_decide_unpack _);
  by vm_compute.

Lemma byte_order_macros_at_endianness m :
  macros (at_endianness m) !! "__BYTE_ORDER__" = m !! "__BYTE_ORDER__" ∧
  macros (at_endianness m) !! "__ORDER_LITTLE_ENDIAN__"
    = m !! "__ORDER_LITTLE_ENDIAN__" ∧
  macros (at_endianness m) !! "__ORDER_BIG_ENDIAN__" = m !! "__ORDER_BIG_ENDIAN__".
Proof. split_and!; apply at_endianness_frame; not_a_header_macro. Qed.

(** The two tests of lines 199 and 201 when the byte-order macros are as
    GCC and Clang predefine them. *)
Lemma gcc_byte_order_tests m order :
  gcc_byte_order m order →
  order = "__ORDER_LITTLE_ENDIAN__" ∨ order = "__ORDER_BIG_ENDIAN__" →
  byte_order_is "__ORDER_LITTLE_ENDIAN__" (at_endianness m)
    = Some (bool_decide (order = "__ORDER_LITTLE_ENDIAN__")) ∧
  byte_order_is "__ORDER_BIG_ENDIAN__" (at_endianness m)
    = Some (bool_decide (order = "__ORDER_BIG_ENDIAN__")).
Proof.
  intros (Hbo & little & big & Hl & Hb & Hrl & Hrb & Hne) Horder.
  destruct (byte_order_macros_at_endianness m) as (Hbo' & Hl' & Hb').
  rewrite Hbo in Hbo'. rewrite Hl in Hl'. rewrite Hb in Hb'.
  assert (Hdef : has (macros (at_endianness m)) "__BYTE_ORDER__")
    by (unfold has; rewrite Hbo'; eauto).
  pose proof (ident_literal _ _ _ Hl' Hrl) as Hil.
  pose proof (ident_literal _ _ _ Hb' Hrb) as Hib.
  destruct Horder as [-> | ->].
  - assert (Hv : ident "__BYTE_ORDER__" (at_endianness m) = Some little)
      by (by apply (ident_alias _ _ "__ORDER_LITTLE_ENDIAN__")).
    rewrite (byte_order_is_value _ _ _ _ Hdef Hv Hil).
    rewrite (byte_order_is_value _ _ _ _ Hdef Hv Hib).
    rewrite Z.eqb_refl. rewrite (proj2 (Z.eqb_neq little big) Hne).
    by vm_compute.
  - assert (Hv : ident "__BYTE_ORDER__" (at_endianness m) = Some big)
      by (by apply (ident_alias _ _ "__ORDER_BIG_ENDIAN__")).
    rewrite (byte_order_is_value _ _ _ _ Hdef Hv Hil).
    rewrite (byte_order_is_value _ _ _ _ Hdef Hv Hib).
    rewrite Z.eqb_refl. rewrite (proj2 (Z.eqb_neq big little)) by done.
    by vm_compute.
Qed.

(** With the byte-order macros as GCC and Clang predefine them
    ([__BYTE_ORDER__] defined as the name of one of the two order macros,
    which are different integer literals below 2^63), no Windows indicator and
    neither flag set by the including file, a first inclusion defines the
    flag of the order [__BYTE_ORDER__] names, as 1, and not the other
    one, and reports no error. *)
Theorem gcc_byte_order_detected (m : gmap string macro) (order : string) :
  m !! include_guard = None →
  m !! "FLANG_LITTLE_ENDIAN" = None →
  m !! "FLANG_BIG_ENDIAN" = None →
  ¬ windows_platform m →
  gcc_byte_order m order →
  let st := api_attrs_h (init m) in
  (order = "__ORDER_LITTLE_ENDIAN__" →
     defined_as st "FLANG_LITTLE_ENDIAN" [Number 1] ∧
     macros st !! "FLANG_BIG_ENDIAN" = None ∧ no_error st) ∧
  (order = "__ORDER_BIG_ENDIAN__" →
     defined_as st "FLANG_BIG_ENDIAN" [Number 1] ∧
     macros st !! "FLANG_LITTLE_ENDIAN" = None ∧ no_error st).
Proof.
  intros Hg HL HB HW Hgcc st. subst st. rewrite (api_attrs_h_first _ Hg).
  destruct (at_endianness_flags m) as [HL' HB'].
  rewrite HL in HL'. rewrite HB in HB'.
  destruct (endianness_unset (at_endianness m) HL' HB' (no_error_at_endianness m))
    as (Hlittle & Hbig & _).
  pose proof (at_endianness_windows m) as HWeq.
  split; intros ->.
  - destruct (gcc_byte_order_tests m _ Hgcc) as [Hle _]; [by left |].
    apply Hlittle. right. apply byte_order_is_true. exact Hle.
  - destruct (gcc_byte_order_tests m _ Hgcc) as [Hle Hbe]; [by right |].
    apply Hbig; [by rewrite HWeq | |].
    + apply byte_order_is_not_true. rewrite Hle. discriminate.
    + apply byte_order_is_true. exact Hbe.
Qed.

Lemma gcc_byte_order_detected_witness :
  defined_as (api_attrs_h (init gcc_host)) "FLANG_LITTLE_ENDIAN" [Number 1] ∧
  macros (api_attrs_h (init gcc_host)) !! "FLANG_BIG_ENDIAN" = None ∧
  no_error (api_attrs_h (init gcc_host)).
Proof.
  apply (gcc_byte_order_detected gcc_host "__ORDER_LITTLE_ENDIAN__");
    [reflexivity | reflexivity | reflexivity | | | reflexivity].
  - intros [[? H] | [? H]]; vm_compute in H; discriminate.
  - split; [reflexivity |]. exists 1234, 4321.
    split_and!; [reflexivity | reflexivity | | | lia];
      (split; by vm_compute).
Defined.

(** An order macro that is not defined counts as 0 in the comparison of
    line 199: with [__BYTE_ORDER__] an integer literal below 2^63 and
    [__ORDER_LITTLE_ENDIAN__] undefined (no Windows indicator, no flag
    set), a first inclusion selects little-endian when the literal is 0,
    and does not when it is anything else. *)
Theorem undefined_order_macro_counts_as_zero (m : gmap string macro) (v : Z) :
  m !! include_guard = None →
  m !! "FLANG_LITTLE_ENDIAN" = None →
  m !! "FLANG_BIG_ENDIAN" = None →
  ¬ windows_platform m →
  m !! "__BYTE_ORDER__" = Some (Obj [Number v]) →
  in_range v →
  m !! "__ORDER_LITTLE_ENDIAN__" = None →
  let st := api_attrs_h (init m) in
  (v = 0 → defined_as st "FLANG_LITTLE_ENDIAN" [Number 1] ∧
           macros st !! "FLANG_BIG_ENDIAN" = None) ∧
  (v ≠ 0 → macros st !! "FLANG_LITTLE_ENDIAN" = None).
Proof.
  intros Hg HL HB HW Hbo Hv Hle st. subst st. rewrite (api_attrs_h_first _ Hg).
  destruct (at_endianness_flags m) as [HL' HB'].
  rewrite HL in HL'. rewrite HB in HB'.
  destruct (byte_order_macros_at_endianness m) as (Hbo' & Hle' & _).
  rewrite Hbo in Hbo'. rewrite Hle in Hle'.
  assert (Htest : byte_order_is "__ORDER_LITTLE_ENDIAN__" (at_endianness m)
                  = Some (v =? 0)).
  { apply byte_order_is_value.
    - unfold has. rewrite Hbo'. eauto.
    - by apply ident_literal.
    - by apply ident_undefined. }
  destruct (endianness_unset (at_endianness m) HL' HB' (no_error_at_endianness m))
    as (Hlittle & Hbig & Herr).
  pose proof (at_endianness_windows m) as HWeq.
  split.
  - intros ->. destruct Hlittle as (H1 & H2 & _); [| done].
    right. apply byte_order_is_true. exact Htest.
  - intros Hv0.
    assert (HnLE : ¬ byte_order_equals (at_endianness m) "__ORDER_LITTLE_ENDIAN__").
    { apply byte_order_is_not_true. rewrite Htest.
      rewrite (proj2 (Z.eqb_neq v 0) Hv0). discriminate. }
    assert (HW' : ¬ windows_platform (macros (at_endianness m)))
      by (by rewrite HWeq).
    destruct (byte_order_equals_dec (at_endianness m) "__ORDER_BIG_ENDIAN__")
      as [HBE | HBE].
    + by destruct (Hbig HW' HnLE HBE) as (_ & H2 & _).
    + by destruct (Herr HW' HnLE HBE) as (_ & H2 & _).
Qed.

Lemma undefined_order_macro_counts_as_zero_witness :
  defined_as
    (api_attrs_h (init (macro_table [("__BYTE_ORDER__", Obj [Number 0])])))
    "FLANG_LITTLE_ENDIAN" [Number 1] ∧
  macros (api_attrs_h (init (macro_table [("__BYTE_ORDER__", Obj [Number 0])])))
    !! "FLANG_BIG_ENDIAN" = None.
Proof.
  apply (undefined_order_macro_counts_as_zero
           (macro_table [("__BYTE_ORDER__", Obj [Number 0])]) 0);
    try reflexivity.
  - intros [[? H] | [? H]]; vm_compute in H; discriminate.
  - split; by vm_compute.
Defined.

(** ** Processing without diagnostics *)

Lemma diags_set_macro_fresh name d st :
  macros st !! name = None → diags (set_macro name d st) = diags st.
Proof.
  intros H. unfold set_macro, redefinition. cbn [diags]. rewrite H.
  apply app_nil_r.
Qed.

Lemma diags_define_fresh name body st :
  macros st !! name = None → diags (define name body st) = diags st.
Proof. apply diags_set_macro_fresh. Qed.

(** The groups under [#ifndef] never redefine anything. *)
Ltac guarded_silent name :=
  let st := fresh "st" in
  let H := fresh "H" in
  intros st; eval_conds;
  destruct (macros st !! name) eqn:H;
  [ by rewrite bool_decide_eq_true_2 by eauto
  | rewrite bool_decide_eq_false_2 by (by intros [? ?]);
    cbn [negb]; repeat case_bool_decide; cbn [andb orb];
    by apply diags_set_macro_fresh ].

Lemma silent_ext_api_group_begin : silent ext_api_group_begin.
Proof. unfold ext_api_group_begin. guarded_silent "RT_EXT_API_GROUP_BEGIN". Qed.

Lemma silent_ext_api_group_end : silent ext_api_group_end.
Proof. unfold ext_api_group_end. guarded_silent "RT_EXT_API_GROUP_END". Qed.

Lemma silent_var_group_begin : silent var_group_begin.
Proof. unfold var_group_begin. guarded_silent "RT_VAR_GROUP_BEGIN". Qed.

Lemma silent_var_group_end : silent var_group_end.
Proof. unfold var_group_end. guarded_silent "RT_VAR_GROUP_END". Qed.

Lemma silent_api_attrs : silent api_attrs.
Proof. unfold api_attrs. guarded_silent "RT_API_ATTRS". Qed.

Lemma silent_const_var_attrs : silent const_var_attrs.
Proof. unfold const_var_attrs. guarded_silent "RT_CONST_VAR_ATTRS". Qed.

Lemma silent_var_attrs : silent var_attrs.
Proof. unfold var_attrs. guarded_silent "RT_VAR_ATTRS". Qed.

Lemma silent_has_attribute_fallback : silent has_attribute_fallback.
Proof. unfold has_attribute_fallback. guarded_silent "__has_attribute". Qed.

(** The other groups redefine nothing when their macros are not defined
    yet. *)
Ltac fresh_define :=
  repeat (rewrite diags_set_macro_fresh; [| frame; assumption]);
  reflexivity.

Ltac unguarded_silent :=
  eval_conds; repeat case_bool_decide; cbn [andb orb negb];
  unfold define; first [reflexivity | fresh_define].

Lemma diags_offload_api_group st :
  macros st !! "RT_OFFLOAD_API_GROUP_BEGIN" = None →
  macros st !! "RT_OFFLOAD_API_GROUP_END" = None →
  diags (offload_api_group st) = diags st.
Proof. intros. unfold offload_api_group. unguarded_silent. Qed.

Lemma diags_offload_var_group st :
  macros st !! "RT_OFFLOAD_VAR_GROUP_BEGIN" = None →
  macros st !! "RT_OFFLOAD_VAR_GROUP_END" = None →
  diags (offload_var_group st) = diags st.
Proof. intros. unfold offload_var_group. unguarded_silent. Qed.

Lemma diags_device_compilation st :
  macros st !! "RT_DEVICE_COMPILATION" = None →
  diags (device_compilation st) = diags st.
Proof. intros. unfold device_compilation. unguarded_silent. Qed.

Lemma diags_device_avoid_recursion st :
  macros st !! "RT_DEVICE_AVOID_RECURSION" = None →
  diags (device_avoid_recursion st) = diags st.
Proof. intros. unfold device_avoid_recursion. unguarded_silent. Qed.

Lemma diags_diag_bracket st :
  macros st !! "RT_DIAG_PUSH" = None →
  macros st !! "RT_DIAG_POP" = None →
  macros st !! "RT_DIAG_DISABLE_CALL_HOST_FROM_DEVICE_WARN" = None →
  diags (diag_bracket st) = diags st.
Proof. intros. unfold diag_bracket. unguarded_silent. Qed.

Lemma diags_device_noinline st :
  macros st !! "RT_DEVICE_NOINLINE" = None →
  macros st !! "RT_DEVICE_NOINLINE_HOST_INLINE" = None →
  diags (device_noinline st) = diags st.
Proof. intros. unfold device_noinline. unguarded_silent. Qed.

Lemma diags_noinline_attr st :
  is_Some (has_attribute "noinline" st) →
  macros st !! "RT_NOINLINE_ATTR" = None →
  diags (noinline_attr st) = diags st.
Proof.
  intros [b Hb] H. unfold noinline_attr, pp_if. rewrite Hb.
  destruct b; by apply diags_define_fresh.
Qed.

Lemma diags_optnone st :
  is_Some (has_attribute "optimize" st) →
  is_Some (has_attribute "optnone" st) →
  macros st !! "RT_OPTNONE_ATTR" = None →
  diags (optnone st) = diags st.
Proof.
  intros [b1 Hb1] [b2 Hb2] H. unfold optnone, pp_if. rewrite Hb1, Hb2.
  destruct b1; [| destruct b2]; by apply diags_define_fresh.
Qed.

Lemma has_attribute_evaluates m a st :
  has_attribute_from_compiler m →
  macros st !! "__has_attribute"
    = Some (default (Fn ["x"] [Number 0]) (m !! "__has_attribute")) →
  macros st !! a = None →
  is_Some (has_attribute a st).
Proof.
  intros [Hm | [known Hm]] Hst Ha; rewrite Hm in Hst; cbn [default] in Hst.
  - exists false. by apply has_attribute_zero.
  - eexists. by apply has_attribute_builtin.
Qed.

(** Lines 26-190 report nothing when [__has_attribute] is the compiler's
    or is left to the header's fallback, the attribute names are not
    macros, and the including file has defined none of the macros that
    the header defines without [#ifndef]. *)
Lemma at_endianness_clean m :
  m !! include_guard = None →
  has_attribute_from_compiler m →
  attribute_names_not_macros m →
  (∀ x, x ∈ unguarded_macros → m !! x = None) →
  diags (at_endianness m) = [].
Proof.
  intros Hg Hm (Hni & Hopt & Hon) Hun.
  assert (Hlook : ∀ s, macros s !! "__has_attribute" = m !! "__has_attribute" →
    macros (has_attribute_fallback s) !! "__has_attribute"
    = Some (default (Fn ["x"] [Number 0]) (m !! "__has_attribute"))).
  { intros s Hs. by rewrite has_attribute_after_fallback, Hs. }
  unfold unguarded_macros in Hun.
  pose proof (Hun "RT_OFFLOAD_API_GROUP_BEGIN" ltac:(repeat constructor)) as H1.
  pose proof (Hun "RT_OFFLOAD_API_GROUP_END" ltac:(repeat constructor)) as H2.
  pose proof (Hun "RT_OFFLOAD_VAR_GROUP_BEGIN" ltac:(repeat constructor)) as H3.
  pose proof (Hun "RT_OFFLOAD_VAR_GROUP_END" ltac:(repeat constructor)) as H4.
  pose proof (Hun "RT_DEVICE_COMPILATION" ltac:(repeat constructor)) as H5.
  pose proof (Hun "RT_DEVICE_AVOID_RECURSION" ltac:(repeat constructor)) as H6.
  pose proof (Hun "RT_DIAG_PUSH" ltac:(repeat constructor)) as H7.
  pose proof (Hun "RT_DIAG_POP" ltac:(repeat constructor)) as H8.
  pose proof (Hun "RT_DIAG_DISABLE_CALL_HOST_FROM_DEVICE_WARN"
                ltac:(repeat constructor)) as H9.
  pose proof (Hun "RT_NOINLINE_ATTR" ltac:(repeat constructor)) as H10.
  pose proof (Hun "RT_DEVICE_NOINLINE" ltac:(repeat constructor)) as H11.
  pose proof (Hun "RT_DEVICE_NOINLINE_HOST_INLINE" ltac:(repeat constructor))
    as H12.
  pose proof (Hun "RT_OPTNONE_ATTR" ltac:(repeat constructor)) as H13.
  clear Hun.
  unfold at_endianness.
  cbv beta delta [before_endianness ext_api_group var_group noinline seq].
  rewrite diags_optnone;
    [| apply (has_attribute_evaluates m);
         [done | frame; apply Hlook; by frame | frame; exact Hopt]
     | apply (has_attribute_evaluates m);
         [done | frame; apply Hlook; by frame | frame; exact Hon]
     | frame; exact H13].
  rewrite diags_device_noinline; [| frame; exact H11 | frame; exact H12].
  rewrite diags_noinline_attr;
    [| apply (has_attribute_evaluates m);
         [done | apply Hlook; by frame | frame; exact Hni]
     | frame; exact H10].
  rewrite silent_has_attribute_fallback.
  rewrite diags_diag_bracket;
    [| frame; exact H7 | frame; exact H8 | frame; exact H9].
  rewrite diags_device_avoid_recursion; [| frame; exact H6].
  rewrite diags_device_compilation; [| frame; exact H5].
  rewrite silent_var_attrs, silent_const_var_attrs, silent_api_attrs.
  rewrite silent_var_group_end, silent_var_group_begin.
  rewrite diags_offload_var_group; [| frame; exact H3 | frame; exact H4].
  rewrite diags_offload_api_group; [| frame; exact H1 | frame; exact H2].
  rewrite silent_ext_api_group_end, silent_ext_api_group_begin.
  by rewrite diags_define_fresh.
Qed.

(** A first inclusion issues none of the diagnostics of this model (an
    [#error], an [#if] that cannot be evaluated, a macro redefinition)
    when [__has_attribute] is the compiler's built-in or absent, no
    attribute name is a macro, the including file has defined none of the
    macros the header defines without [#ifndef], and the byte order is
    settled: a flag set by the including file, a Windows indicator, or
    the byte-order macros as GCC and Clang predefine them. *)
Theorem clean_processing (m : gmap string macro) :
  m !! include_guard = None →
  has_attribute_from_compiler m →
  attribute_names_not_macros m →
  (∀ x, x ∈ unguarded_macros → m !! x = None) →
  has m "FLANG_LITTLE_ENDIAN" ∨ has m "FLANG_BIG_ENDIAN" ∨ windows_platform m ∨
    gcc_byte_order m "__ORDER_LITTLE_ENDIAN__" ∨
    gcc_byte_order m "__ORDER_BIG_ENDIAN__" →
  diags (api_attrs_h (init m)) = [].
Proof.
  intros Hg Hm Hnames Hun Hsettled. rewrite (api_attrs_h_first _ Hg).
  pose proof (at_endianness_clean m Hg Hm Hnames Hun) as Hsilent.
  destruct (at_endianness_flags m) as [HL' HB'].
  destruct (decide (has m "FLANG_LITTLE_ENDIAN" ∨ has m "FLANG_BIG_ENDIAN"))
    as [Hset | Hunset].
  { rewrite endianness_preset; [done |]. unfold has in *. by rewrite HL', HB'. }
  assert (HL : m !! "FLANG_LITTLE_ENDIAN" = None)
    by (apply not_has_None; tauto).
  assert (HB : m !! "FLANG_BIG_ENDIAN" = None)
    by (apply not_has_None; tauto).
  rewrite HL in HL'. rewrite HB in HB'.
  rewrite endianness_unset_eq by done.
  destruct (windows_spec (at_endianness m)) as (bw & Hw & Hwi).
  rewrite at_endianness_windows in Hwi.
  unfold pp_if at 1. rewrite Hw.
  destruct bw; [rewrite (diags_define_fresh _ _ _ HL'); exact Hsilent |].
  assert (HW : ¬ windows_platform m) by (rewrite <- Hwi; done).
  destruct Hsettled as [Hs | [Hs | [Hs | Hgcc]]];
    [ by (destruct Hunset; left) | by (destruct Hunset; right)
    | by destruct HW | ].
  unfold pp_if.
  destruct Hgcc as [Hgcc | Hgcc];
    destruct (gcc_byte_order_tests m _ Hgcc) as [Hle Hbe]; eauto;
    rewrite Hle, ?Hbe.
  - rewrite bool_decide_eq_true_2 by reflexivity.
    rewrite (diags_define_fresh _ _ _ HL'). exact Hsilent.
  - rewrite bool_decide_eq_false_2 by discriminate.
    rewrite bool_decide_eq_true_2 by reflexivity.
    rewrite (diags_define_fresh _ _ _ HB'). exact Hsilent.
Qed.

Lemma clean_processing_witness : diags (api_attrs_h (init msvc)) = [].
Proof.
  apply (clean_processing msvc); [reflexivity | by left | | |].
  - split_and!; reflexivity.
  - intros x Hx. unfold unguarded_macros in Hx.
    repeat (apply elem_of_cons in Hx as [-> | Hx]); try reflexivity.
    by apply elem_of_nil in Hx.
  - right; right; left. left. vm_compute. eauto.
Defined.

(** ** An override of the exported-function pair reaches its aliases *)




